(** * MEGA file picker: parser, classifier and sampler of [mega-file-picker.tsx]

    A shallow embedding of the logic of the [MegaFilePicker] component:
    [parseNewStructure] (the line parser), [getFileType] (the classifier),
    and the handlers that act on the component state ([handleFileUpload],
    [pickRandomFile], [generateBatch], [clearBatch], [resetApp] and the
    click on a batch entry).

    JavaScript strings are sequences of UTF-16 code units; they are modelled
    as lists of code units, each an [N].  [Math.random] is modelled by the
    indices it yields. *)

From Stdlib Require Import List NArith Ascii String Lia Permutation Bool Arith.
From Stdlib Require Import DecimalString.
From stdpp Require Import gmap.
Import ListNotations.

Local Open Scope list_scope.

(** ** JavaScript strings *)

Definition codeUnit := N.
Definition jsstring := list codeUnit.

(** A string literal of the source, as code units. *)
Definition js (s : string) : jsstring := map N_of_ascii (list_ascii_of_string s).

(** [a === b] on strings. *)
Fixpoint strEq (a b : jsstring) : bool :=
  match a, b with
  | [], [] => true
  | x :: a', y :: b' => (x =? y)%N && strEq a' b'
  | _, _ => false
  end.

Definition isEmpty (s : jsstring) : bool :=
  match s with [] => true | _ => false end.

(** [WhiteSpace] and [LineTerminator] of ECMAScript: what [trim] strips and
    what the regular-expression class [\s] matches. *)
Definition isWhiteSpace (c : codeUnit) : bool :=
  ((9 <=? c) && (c <=? 13) || (c =? 32) || (c =? 160) || (c =? 5760)
   || (8192 <=? c) && (c <=? 8202) || (c =? 8232) || (c =? 8233)
   || (c =? 8239) || (c =? 8287) || (c =? 12288) || (c =? 65279))%N.

(** The code units that [.] (without the [s] flag) refuses. *)
Definition isLineTerminator (c : codeUnit) : bool :=
  ((c =? 10) || (c =? 13) || (c =? 8232) || (c =? 8233))%N.

Definition chNewline : codeUnit := 10%N.
Definition chSlash : codeUnit := 47%N.
Definition chDot : codeUnit := 46%N.
Definition chLt : codeUnit := 60%N.
Definition chGt : codeUnit := 62%N.
Definition chH : codeUnit := 72%N.
Definition chColon : codeUnit := 58%N.

(** [s.split(sep)] for a separator of one code unit. *)
Fixpoint split (sep : codeUnit) (s : jsstring) : list jsstring :=
  match s with
  | [] => [[]]
  | c :: s' =>
      if (c =? sep)%N then [] :: split sep s'
      else match split sep s' with
           | seg :: rest => (c :: seg) :: rest
           | [] => [[c]]
           end
  end.

(** [segs.join(sep)]. *)
Fixpoint join (sep : jsstring) (segs : list jsstring) : jsstring :=
  match segs with
  | [] => []
  | [seg] => seg
  | seg :: rest => seg ++ sep ++ join sep rest
  end.

Fixpoint startsWith (s pat : jsstring) : bool :=
  match pat, s with
  | [], _ => true
  | p :: pat', c :: s' => (c =? p)%N && startsWith s' pat'
  | _ :: _, [] => false
  end.

(** [s.includes(pat)]. *)
Fixpoint includes (s pat : jsstring) : bool :=
  startsWith s pat ||
  match s with
  | [] => false
  | _ :: s' => includes s' pat
  end.

Fixpoint dropWhile {A} (p : A -> bool) (l : list A) : list A :=
  match l with
  | [] => []
  | x :: l' => if p x then dropWhile p l' else l
  end.

Fixpoint takeWhile {A} (p : A -> bool) (l : list A) : list A :=
  match l with
  | [] => []
  | x :: l' => if p x then x :: takeWhile p l' else []
  end.

Definition trimStart (s : jsstring) : jsstring := dropWhile isWhiteSpace s.
Definition trimEnd (s : jsstring) : jsstring := rev (dropWhile isWhiteSpace (rev s)).

(** [s.trim()]. *)
Definition trim (s : jsstring) : jsstring := trimEnd (trimStart s).

(** [arr.pop()] as a value: the last element, [None] on the empty array. *)
Fixpoint pop {A} (l : list A) : option A :=
  match l with
  | [] => None
  | [x] => Some x
  | _ :: l' => pop l'
  end.

(** [arr.includes(x)] on an array of strings. *)
Definition arrIncludes (arr : list jsstring) (x : jsstring) : bool :=
  existsb (strEq x) arr.

(** ** The line pattern [/^(.+?)\s+<H:([^>]+)>$/]

    The matcher follows the backtracking semantics of the pattern.  After the
    path group, [\s+] is greedy, but no white space is a [<], so only its
    longest run can be followed by [<H:]; likewise [[^>]+] can be followed by
    [>] only after its longest run.  [matchHandle] is that suffix
    [\s+<H:([^>]+)>$] and returns the second group. *)
Definition matchHandle (s : jsstring) : option jsstring :=
  match takeWhile isWhiteSpace s with
  | [] => None
  | _ :: _ =>
      match dropWhile isWhiteSpace s with
      | a :: b :: c :: r =>
          if ((a =? chLt) && (b =? chH) && (c =? chColon))%N then
            let h := takeWhile (fun x => negb (x =? chGt)%N) r in
            match h, dropWhile (fun x => negb (x =? chGt)%N) r with
            | _ :: _, [_] => Some h
            | _, _ => None
            end
          else None
      | _ => None
      end
  end.

(** The lazy group [(.+?)] anchored at the start: it takes one code unit that
    is no line terminator, then tries the rest of the pattern, and takes one
    more code unit each time the rest fails.  [seen] is the part of the group
    consumed so far, in reverse. *)
Fixpoint matchPath (seen s : jsstring) : option (jsstring * jsstring) :=
  match s with
  | [] => None
  | c :: s' =>
      if isLineTerminator c then None
      else match matchHandle s' with
           | Some h => Some (rev (c :: seen), h)
           | None => matchPath (c :: seen) s'
           end
  end.

(** [trimmedLine.match(lineRegex)]: groups 1 and 2 of the match. *)
Definition matchLine (s : jsstring) : option (jsstring * jsstring) :=
  matchPath [] s.

(** ** Records *)

Record MegaFile := mkMegaFile {
  id : nat;
  fileName : jsstring;
  fullPath : jsstring;
  folderPath : jsstring;
  extension : jsstring;
  type : jsstring;
  handle : jsstring
}.

(** ** The classifier *)

Definition imageExts : list jsstring :=
  [js "jpg"; js "jpeg"; js "png"; js "gif"; js "bmp"; js "webp"].
Definition videoExts : list jsstring :=
  [js "mp4"; js "avi"; js "mov"; js "wmv"; js "flv"; js "mkv"; js "webm"].
Definition audioExts : list jsstring :=
  [js "mp3"; js "wav"; js "flac"; js "aac"; js "ogg"].
Definition docExts : list jsstring :=
  [js "pdf"; js "doc"; js "docx"; js "txt"; js "rtf"].

Definition getFileType (extension : jsstring) : jsstring :=
  if arrIncludes imageExts extension then js "image"
  else if arrIncludes videoExts extension then js "video"
  else if arrIncludes audioExts extension then js "audio"
  else if arrIncludes docExts extension then js "document"
  else js "file".

(** ** The parser *)

Section Parser.

(** [String.prototype.toLowerCase] of the platform (a Unicode case mapping);
    the parser is read for any such function. *)
Variable toLowerCase : jsstring -> jsstring.

(** [fileName.split('.').pop()?.toLowerCase() || ''] *)
Definition extensionOf (fileName : jsstring) : jsstring :=
  match pop (split chDot fileName) with
  | Some e => if isEmpty (toLowerCase e) then [] else toLowerCase e
  | None => []
  end.

(** The record that the body of the loop pushes for [line] when the array
    [files] has [n] entries, or [None] when the line is passed over. *)
Definition parseLine (n : nat) (line : jsstring) : option MegaFile :=
  if includes line (js "<H:") then
    let trimmedLine := trim line in
    match matchLine trimmedLine with
    | Some (g1, g2) =>
        let fullPath := trim g1 in
        let handle := trim g2 in
        let pathSegments := List.filter (fun seg => negb (isEmpty seg)) (split chSlash fullPath) in
        match pop pathSegments with
        | None => None
        | Some fileName =>
            let folderPath :=
              if (1 <? length pathSegments)%nat
              then chSlash :: join [chSlash] (removelast pathSegments)
              else [chSlash] in
            let extension := extensionOf fileName in
            Some {| id := n;
                    fileName := fileName;
                    fullPath := fullPath;
                    folderPath := folderPath;
                    extension := extension;
                    type := getFileType extension;
                    handle := handle |}
        end
    | None => None
    end
  else None.

(** The [for] loop over the lines, from the array [files]. *)
Fixpoint parseLines (lines : list jsstring) (files : list MegaFile) : list MegaFile :=
  match lines with
  | [] => files
  | line :: rest =>
      match parseLine (length files) line with
      | Some f => parseLines rest (files ++ [f])
      | None => parseLines rest files
      end
  end.

Definition parseNewStructure (text : jsstring) : list MegaFile :=
  parseLines (split chNewline text) [].

End Parser.

(** ** The component state

    The three [useState] cells the handlers read and write.  ([isLoading],
    [isDragOver] and [stats] are display values no handler branches on.) *)

Record State := mkState {
  database : list MegaFile;
  currentBatch : list MegaFile;
  currentFile : option MegaFile
}.

Definition initialState : State :=
  {| database := []; currentBatch := []; currentFile := None |}.

(** ** The sampler

    [Math.floor(Math.random() * database.length)] is a draw: an index [i] of
    the array.  The handlers take the draws as arguments. *)

(** [pickRandomFile] with the draw [i].  The handler returns nothing; the first
    component is the record it bound to [randomFile], [None] when it returned
    at the guard.  (An index outside the array is no value of the draw; the
    state is left as it is there.) *)
Definition pickRandomFile (i : nat) (s : State) : option MegaFile * State :=
  match database s with
  | [] => (None, s)
  | _ :: _ =>
      match nth_error (database s) i with
      | None => (None, s)
      | Some randomFile =>
          (Some randomFile,
           {| database := database s;
              currentBatch :=
                match find (fun f => id f =? id randomFile) (currentBatch s) with
                | Some _ => currentBatch s
                | None => randomFile :: currentBatch s
                end;
              currentFile := Some randomFile |})
      end
  end.

(** The [while] loop of [generateBatch], run for at most [fuel] iterations;
    [rnd k] is the draw of iteration [k].  [None]: the loop is still running
    after [fuel] iterations (or met an index outside the array, which is no
    value of the draw). *)
Fixpoint drawLoop (fuel : nat) (database : list MegaFile) (limit : nat)
    (rnd : nat -> nat) (k : nat) (batch : list MegaFile) (used : gset nat)
    : option (list MegaFile) :=
  if length batch <? limit then
    match fuel with
    | O => None
    | S fuel' =>
        match nth_error database (rnd k) with
        | None => None
        | Some randomFile =>
            if decide (id randomFile ∈ used)
            then drawLoop fuel' database limit rnd (S k) batch used
            else drawLoop fuel' database limit rnd (S k)
                   (batch ++ [randomFile]) ({[ id randomFile ]} ∪ used)
        end
    end
  else Some batch.

(** [generateBatch(count)] with the draws [rnd]; [None] when the loop does not
    end within [fuel] iterations.  [count] is a number of records (the one
    call in the component passes 10).  The handler returns nothing: the batch
    it drew is the [currentBatch] of the state after. *)
Definition generateBatch (count : nat) (rnd : nat -> nat) (fuel : nat) (s : State)
    : option State :=
  match database s with
  | [] => Some s
  | _ :: _ =>
      let limit := Nat.min count (length (database s)) in
      match drawLoop fuel (database s) limit rnd 0 [] ∅ with
      | None => None
      | Some batch =>
          Some {| database := database s;
                  currentBatch := batch;
                  currentFile := head batch |}
      end
  end.

Definition clearBatch (s : State) : State :=
  {| database := database s; currentBatch := []; currentFile := None |}.

Definition resetApp (s : State) : State :=
  {| database := []; currentBatch := []; currentFile := None |}.

(** The click on a row of the batch list: [setCurrentFile(file)]. *)
Definition selectFile (file : MegaFile) (s : State) : State :=
  {| database := database s; currentBatch := currentBatch s; currentFile := Some file |}.

(** The draws of a run: each one an index of the array. *)
Definition drawsInRange (n : nat) (rnd : nat -> nat) : Prop :=
  forall k, rnd k < n.

(** Every index of the array keeps coming back among the draws. *)
Definition drawsRecur (n : nat) (rnd : nat -> nat) : Prop :=
  forall k i, i < n -> exists j, k <= j /\ rnd j = i.

Section Component.

Variable toLowerCase : jsstring -> jsstring.

(** [handleFileUpload] once the text of the file has been read. *)
Definition handleFileUpload (text : jsstring) (s : State) : State :=
  {| database := parseNewStructure toLowerCase text;
     currentBatch := [];
     currentFile := None |}.

(** One user action on the component. *)
Inductive step : State -> State -> Prop :=
| step_upload s text : step s (handleFileUpload text s)
| step_pick s i : step s (snd (pickRandomFile i s))
| step_batch s count rnd fuel s' :
    generateBatch count rnd fuel s = Some s' -> step s s'
| step_select s file : In file (currentBatch s) -> step s (selectFile file s)
| step_clear s : step s (clearBatch s)
| step_reset s : step s (resetApp s).

(** The states of the component: those that user actions lead to from the
    initial one. *)
Inductive reachable : State -> Prop :=
| reach_init : reachable initialState
| reach_step s s' : reachable s -> step s s' -> reachable s'.

End Component.

(** A case mapping for examples: [toLowerCase] on ASCII text. *)
Definition asciiToLowerCase (s : jsstring) : jsstring :=
  map (fun c => if ((65 <=? c) && (c <=? 90))%N then (c + 32)%N else c) s.

Definition file0 : MegaFile :=
  {| id := 0; fileName := js "a.txt"; fullPath := js "/a.txt"; folderPath := js "/";
     extension := js "txt"; type := js "document"; handle := js "h0" |}.

Definition file1 : MegaFile :=
  {| id := 1; fileName := js "b.png"; fullPath := js "/b.png"; folderPath := js "/";
     extension := js "png"; type := js "image"; handle := js "h1" |}.

(** The same record under another id. *)
Definition withId (n : nat) (f : MegaFile) : MegaFile :=
  {| id := n; fileName := fileName f; fullPath := fullPath f;
     folderPath := folderPath f; extension := extension f;
     type := type f; handle := handle f |}.

(** [folderPath + "/" + fileName], a [folderPath] of ["/"] read as empty. *)
Definition reconstruct (f : MegaFile) : jsstring :=
  (if strEq (folderPath f) [chSlash] then [] else folderPath f)
    ++ [chSlash] ++ fileName f.

(** The segments of a path: [p.split('/').filter(Boolean)]. *)
Definition segments (p : jsstring) : list jsstring :=
  List.filter (fun seg => negb (isEmpty seg)) (split chSlash p).

(** A path in normal form: a slash, then segments none of which is empty,
    one slash between two of them. *)
Definition isNormalPath (p : jsstring) : bool :=
  match p with
  | c :: q => (c =? chSlash)%N && forallb (fun seg => negb (isEmpty seg)) (split chSlash q)
  | [] => false
  end.

Definition hasMarker (line : jsstring) : bool := includes line (js "<H:").

(** What the loop of [generateBatch] keeps true of [batch] and [used]:
    [used] holds the ids of [batch], no id is there twice, and every record
    of [batch] is one of [database]. *)
Definition loopInv (database batch : list MegaFile) (used : gset nat) : Prop :=
  (forall x, x ∈ used <-> In x (map id batch)) /\
  List.NoDup (map id batch) /\
  incl batch database.

(** The current selection is in the batch, by its id. *)
Definition selectionInBatch (s : State) : Prop :=
  forall f, currentFile s = Some f ->
  exists g, In g (currentBatch s) /\ id g = id f.

(** What the handlers keep true of the state: the ids of the record set are
    distinct, the batch holds records of the record set, no id twice, and the
    selection is in the batch. *)
Definition stateInv (s : State) : Prop :=
  List.NoDup (map id (database s)) /\
  incl (currentBatch s) (database s) /\
  List.NoDup (map id (currentBatch s)) /\
  selectionInBatch s.

(** ** States for the examples *)

Definition nl : string := String (ascii_of_nat 10) EmptyString.

Definition oneFileText : jsstring := js "/a.txt <H:h0>".

Definition twoFilesText : jsstring := js ("/a.txt <H:h0>" ++ nl ++ "/b.png <H:h1>").

(** The state after the upload of a listing of one file, and of two. *)
Definition oneFile : State :=
  handleFileUpload asciiToLowerCase oneFileText initialState.

Definition twoFiles : State :=
  handleFileUpload asciiToLowerCase twoFilesText initialState.

(** Draws on a record set of two that give each index twice before the
    other: 0, 0, 1, 1, 0, 0, ... *)
Definition slowDraws (k : nat) : nat := (k / 2) mod 2.

(** ** Icons, links and the export of the batch *)

Definition getFileIcon (type : jsstring) : jsstring :=
  if strEq type (js "image") then [55357; 56764; 65039]%N
  else if strEq type (js "video") then [55356; 57253]%N
  else if strEq type (js "audio") then [55356; 57269]%N
  else if strEq type (js "document") then [55357; 56516]%N
  else [55357; 56513]%N.

Definition megaUrlPrefix : jsstring := js "https://mega.nz/file/".

(** [openInMega(handle)]: the address given to [window.open], [None] when the
    handler returns at its guard. *)
Definition openInMega (handle : jsstring) : option jsstring :=
  if isEmpty handle then None else Some (megaUrlPrefix ++ handle).

(** A whole number in a template literal: its decimal digits. *)
Definition numberToString (n : nat) : jsstring :=
  js (NilEmpty.string_of_uint (Nat.to_uint n)).

(** [arr.map((x, index) => f(x, index))], the indices counted from [index]. *)
Fixpoint mapIndexed {A B} (f : A -> nat -> B) (index : nat) (arr : list A) : list B :=
  match arr with
  | [] => []
  | x :: rest => f x index :: mapIndexed f (S index) rest
  end.

(** The text of one entry of the listing. *)
Definition exportEntry (file : MegaFile) (index : nat) : jsstring :=
  numberToString (index + 1) ++ js ". " ++ fileName file ++ [chNewline]
    ++ js "   Path: " ++ fullPath file ++ [chNewline]
    ++ js "   Link: " ++ megaUrlPrefix ++ handle file ++ [chNewline].

(** The [text] that [copyAllFiles] and [downloadFileList] build; [timestamp]
    is what the clock gave. *)
Definition exportText (timestamp : jsstring) (batch : list MegaFile) : jsstring :=
  js "Random Files - " ++ timestamp ++ [chNewline; chNewline]
    ++ join [chNewline] (mapIndexed exportEntry 0 batch).

(** [copyAllFiles]: the text written to the clipboard, [None] when the handler
    returns at its guard. *)
Definition copyAllFiles (timestamp : jsstring) (s : State) : option jsstring :=
  match currentBatch s with
  | [] => None
  | _ :: _ => Some (exportText timestamp (currentBatch s))
  end.

(** [downloadFileList]: the name and the text of the file offered for
    download, [None] when the handler returns at its guard. *)
Definition downloadFileList (timestamp : jsstring) (s : State)
    : option (jsstring * jsstring) :=
  match currentBatch s with
  | [] => None
  | _ :: _ =>
      Some (js "random-files-" ++ timestamp ++ js ".txt",
            exportText timestamp (currentBatch s))
  end.

(** The count [folders] of [handleFileUpload]:
    [new Set(parsedFiles.map(f => f.folderPath)).size]. *)
Definition folders (parsedFiles : list MegaFile) : nat :=
  size (list_to_set (map folderPath parsedFiles) : gset (list N)).

(** The four lines that an entry of the listing takes. *)
Definition entryLines (file : MegaFile) (index : nat) : list jsstring :=
  [numberToString (index + 1) ++ js ". " ++ fileName file;
   js "   Path: " ++ fullPath file;
   js "   Link: " ++ megaUrlPrefix ++ handle file;
   []].

(** The shift of the ids of a second listing put after [n] records. *)
Definition shiftId (n : nat) (f : MegaFile) : MegaFile := withId (n + id f) f.

(** What [.] takes, and what [\s] takes. *)
Definition notTerminator (c : codeUnit) : Prop := isLineTerminator c = false.
Definition whiteSpace (c : codeUnit) : Prop := isWhiteSpace c = true.

(** No line feed in the fields that the listing shows. *)
Definition oneLineFields (f : MegaFile) : Prop :=
  ~ In chNewline (fileName f) /\ ~ In chNewline (fullPath f) /\ ~ In chNewline (handle f).

(** The line of the listing that names a record: its path and its handle
    token, as the parser reads them. *)
Definition listingLine (f : MegaFile) : jsstring :=
  fullPath f ++ js " <H:" ++ handle f ++ [chGt].

(** * Properties *)

(** ** Strings and arrays *)

Lemma strEq_eq (a b : jsstring) : strEq a b = true <-> a = b.
Proof.
  revert b; induction a as [|x a IH]; intros [|y b]; simpl; split; try congruence; auto.
  - intros H. apply andb_prop in H as [Hx Hab].
    apply N.eqb_eq in Hx. apply IH in Hab. congruence.
  - intros H. injection H as -> ->.
    rewrite N.eqb_refl. simpl. now apply IH.
Qed.

Lemma arrIncludes_In (arr : list jsstring) (x : jsstring) :
  arrIncludes arr x = true <-> In x arr.
Proof.
  unfold arrIncludes. rewrite existsb_exists. split.
  - intros (y & Hy & Heq). apply strEq_eq in Heq. now subst.
  - intros H. exists x. split; [assumption | now apply strEq_eq].
Qed.

Lemma arrIncludes_not_In (arr : list jsstring) (x : jsstring) :
  ~ In x arr -> arrIncludes arr x = false.
Proof.
  intros H. destruct (arrIncludes arr x) eqn:E; [|reflexivity].
  apply arrIncludes_In in E. contradiction.
Qed.

Lemma split_not_nil (sep : codeUnit) (s : jsstring) : split sep s <> [].
Proof.
  destruct s as [|c s]; simpl; [discriminate|].
  destruct (c =? sep)%N; [discriminate|].
  destruct (split sep s); discriminate.
Qed.

Lemma join_split (sep : codeUnit) (s : jsstring) : join [sep] (split sep s) = s.
Proof.
  induction s as [|c s IH]; simpl; [reflexivity|].
  destruct (N.eqb_spec c sep) as [->|Hne].
  - pose proof (split_not_nil sep s) as Hnil.
    destruct (split sep s) as [|seg rest] eqn:E; [contradiction|].
    simpl in *. now rewrite IH.
  - pose proof (split_not_nil sep s) as Hnil.
    destruct (split sep s) as [|seg rest] eqn:E; [contradiction|].
    destruct rest; simpl in *; now rewrite <- IH.
Qed.

Lemma split_no_sep (sep : codeUnit) (s : jsstring) :
  ~ In sep s -> split sep s = [s].
Proof.
  induction s as [|c s IH]; simpl; intros H; [reflexivity|].
  destruct (N.eqb_spec c sep) as [->|Hne]; [exfalso; auto|].
  rewrite IH; auto.
Qed.

Lemma pop_app {A} (l : list A) (x : A) : pop (l ++ [x]) = Some x.
Proof.
  induction l as [|y l IH]; simpl; [reflexivity|].
  destruct (l ++ [x]) eqn:E; [destruct l; discriminate|]. exact IH.
Qed.

Lemma pop_Some {A} (l : list A) (x : A) :
  pop l = Some x -> l = removelast l ++ [x].
Proof.
  induction l as [|y l IH]; simpl; [discriminate|].
  destruct l as [|z l]; [intros [= ->]; reflexivity|].
  intros H. apply IH in H. simpl. f_equal. exact H.
Qed.

Lemma split_app_sep (sep : codeUnit) (a b : jsstring) :
  split sep (a ++ sep :: b) = split sep a ++ split sep b.
Proof.
  induction a as [|c a IH]; simpl.
  - now rewrite N.eqb_refl.
  - rewrite IH. destruct (c =? sep)%N; [reflexivity|].
    pose proof (split_not_nil sep a).
    destruct (split sep a); [contradiction | reflexivity].
Qed.

Lemma pop_split_app (sep : codeUnit) (a b : jsstring) :
  ~ In sep b -> pop (split sep (a ++ sep :: b)) = Some b.
Proof.
  intros Hb. rewrite split_app_sep, (split_no_sep _ _ Hb). apply pop_app.
Qed.

Lemma join_snoc (sep : jsstring) (l : list jsstring) (x : jsstring) :
  l <> [] -> join sep (l ++ [x]) = join sep l ++ sep ++ x.
Proof.
  induction l as [|y l IH]; intros Hl; [contradiction|].
  destruct l as [|z l]; [reflexivity|].
  change (join sep ((y :: z :: l) ++ [x])) with (y ++ sep ++ join sep ((z :: l) ++ [x])).
  rewrite IH by discriminate.
  change (join sep (y :: z :: l)) with (y ++ sep ++ join sep (z :: l)).
  now rewrite <- !app_assoc.
Qed.

Lemma join_not_nil (sep : jsstring) (l : list jsstring) :
  l <> [] -> Forall (fun seg => seg <> []) l -> join sep l <> [].
Proof.
  destruct l as [|y l]; intros Hl HF; [contradiction|].
  inversion HF as [|? ? Hy _]; subst.
  destruct y; [contradiction|].
  destruct l; simpl; discriminate.
Qed.

Lemma filter_all {A} (p : A -> bool) (l : list A) :
  forallb p l = true -> List.filter p l = l.
Proof.
  induction l as [|x l IH]; simpl; [reflexivity|].
  intros H. apply andb_prop in H as [-> Hl]. now rewrite IH.
Qed.

(** ** The classifier *)

(** C9: [getFileType] is a function of the extension alone (equal extensions
    get equal categories), its value is always one of the five categories, and
    an extension in none of the four lists, the empty string among them, gets
    the category [file]. *)
Theorem getFileType_total_fallback :
  (forall e1 e2 : jsstring, e1 = e2 -> getFileType e1 = getFileType e2) /\
  (forall e : jsstring,
      In (getFileType e) [js "image"; js "video"; js "audio"; js "document"; js "file"]) /\
  (forall e : jsstring,
      ~ In e imageExts -> ~ In e videoExts -> ~ In e audioExts -> ~ In e docExts ->
      getFileType e = js "file") /\
  getFileType [] = js "file".
Proof.
  split; [intros e1 e2 ->; reflexivity|].
  split.
  - intros e. unfold getFileType.
    destruct (arrIncludes imageExts e); [now left|].
    destruct (arrIncludes videoExts e); [now right; left|].
    destruct (arrIncludes audioExts e); [now right; right; left|].
    destruct (arrIncludes docExts e); [now right; right; right; left|].
    now right; right; right; right; left.
  - split; [|reflexivity].
    intros e Hi Hv Ha Hd. unfold getFileType.
    now rewrite !arrIncludes_not_In.
Qed.

Lemma getFileType_total_fallback_witness :
  ~ In (js "xyz") imageExts /\ getFileType (js "xyz") = js "file".
Proof.
  assert (Hn : forall l, arrIncludes l (js "xyz") = false -> ~ In (js "xyz") l).
  { intros l E H. apply arrIncludes_In in H. congruence. }
  split; [apply Hn; reflexivity|].
  apply (proj1 (proj2 (proj2 getFileType_total_fallback))); apply Hn; reflexivity.
Defined.

(** ** The parser *)

Section ParserFacts.

Variable toLowerCase : jsstring -> jsstring.


(** What a line gives rests on the line alone, but for the id. *)
Lemma parseLine_withId (n m : nat) (line : jsstring) :
  parseLine toLowerCase m line = option_map (withId m) (parseLine toLowerCase n line).
Proof.
  unfold parseLine.
  destruct (includes line (js "<H:")); [|reflexivity].
  destruct (matchLine (trim line)) as [[g1 g2]|]; [|reflexivity].
  destruct (pop _); reflexivity.
Qed.

Lemma parseLine_id (n : nat) (line : jsstring) (f : MegaFile) :
  parseLine toLowerCase n line = Some f -> id f = n.
Proof.
  unfold parseLine.
  destruct (includes line (js "<H:")); [|discriminate].
  destruct (matchLine (trim line)) as [[g1 g2]|]; [|discriminate].
  destruct (pop _); [|discriminate].
  now intros [= <-].
Qed.

Lemma parseLine_no_marker (n : nat) (line : jsstring) :
  hasMarker line = false -> parseLine toLowerCase n line = None.
Proof. unfold hasMarker, parseLine. now intros ->. Qed.

(** The fields of a record, from the path group of its line. *)
Lemma parseLine_fields (n : nat) (line : jsstring) (f : MegaFile) :
  parseLine toLowerCase n line = Some f ->
  pop (segments (fullPath f)) = Some (fileName f) /\
  folderPath f =
    (if 1 <? length (segments (fullPath f))
     then chSlash :: join [chSlash] (removelast (segments (fullPath f)))
     else [chSlash]) /\
  extension f = extensionOf toLowerCase (fileName f) /\
  type f = getFileType (extension f).
Proof.
  unfold parseLine, segments.
  destruct (includes line (js "<H:")); [|discriminate].
  destruct (matchLine (trim line)) as [[g1 g2]|]; [|discriminate].
  destruct (pop _) as [name|] eqn:E; [|discriminate].
  intros [= <-]. simpl. auto.
Qed.

(** The loop only adds at the end of [files]. *)
Lemma parseLines_content (lines : list jsstring) (files : list MegaFile) :
  map (withId 0) (parseLines toLowerCase lines files)
  = map (withId 0) files ++ omap (parseLine toLowerCase 0) lines.
Proof.
  revert files; induction lines as [|line rest IH]; intros files; simpl.
  - now rewrite app_nil_r.
  - rewrite (parseLine_withId 0 (length files)).
    destruct (parseLine toLowerCase 0 line) as [f|] eqn:E; simpl.
    + rewrite IH, map_app. simpl. rewrite <- app_assoc. simpl.
      apply parseLine_id in E. destruct f; simpl in E; subst. reflexivity.
    + apply IH.
Qed.

Lemma parseLines_ids (lines : list jsstring) (files : list MegaFile) :
  map id files = seq 0 (length files) ->
  map id (parseLines toLowerCase lines files) = seq 0 (length (parseLines toLowerCase lines files)).
Proof.
  revert files; induction lines as [|line rest IH]; intros files Hids; simpl.
  - exact Hids.
  - destruct (parseLine toLowerCase (length files) line) as [f|] eqn:E.
    + apply IH. rewrite map_app, length_app, Hids. simpl.
      rewrite (parseLine_id _ _ _ E), Nat.add_1_r, seq_S. reflexivity.
    + now apply IH.
Qed.

Lemma parseLines_In (lines : list jsstring) (files : list MegaFile) (f : MegaFile) :
  In f (parseLines toLowerCase lines files) ->
  In f files \/ exists n line, In line lines /\ parseLine toLowerCase n line = Some f.
Proof.
  revert files; induction lines as [|line rest IH]; intros files; simpl.
  - auto.
  - destruct (parseLine toLowerCase (length files) line) as [g|] eqn:E; intros H.
    + apply IH in H as [H | (n & l & Hl & Hp)].
      * apply in_app_or in H as [H | [<- | []]]; [now left|].
        right. exists (length files), line. auto.
      * right. exists n, l. auto.
    + apply IH in H as [H | (n & l & Hl & Hp)]; [now left|].
      right. exists n, l. auto.
Qed.

Lemma parse_In (text : jsstring) (f : MegaFile) :
  In f (parseNewStructure toLowerCase text) ->
  exists n line, In line (split chNewline text) /\ parseLine toLowerCase n line = Some f.
Proof.
  intros H. apply parseLines_In in H as [[] | H]. exact H.
Qed.

Lemma omap_cons {A B} (g : A -> option B) (x : A) (l : list A) :
  omap g (x :: l) = match g x with Some y => y :: omap g l | None => omap g l end.
Proof. reflexivity. Qed.

Lemma omap_filter_marker (lines : list jsstring) :
  omap (parseLine toLowerCase 0) (List.filter hasMarker lines) = omap (parseLine toLowerCase 0) lines.
Proof.
  induction lines as [|line rest IH]; [reflexivity|].
  cbn [List.filter]. destruct (hasMarker line) eqn:E.
  - now rewrite !omap_cons, IH.
  - now rewrite omap_cons, (parseLine_no_marker _ _ E).
Qed.

Lemma length_omap_le {A B} (g : A -> option B) (l : list A) :
  length (omap g l) <= length l.
Proof.
  induction l as [|x l IH]; [simpl; lia|].
  rewrite omap_cons. destruct (g x); simpl; lia.
Qed.

(** C5: a line gives at most one record, and none without the marker [<H:]:
    the records are those of the marked lines, one for each at most, so there
    are no more records than marked lines. *)
Theorem parse_only_marked_lines (text : jsstring) :
  let lines := split chNewline text in
  length (parseNewStructure toLowerCase text) <= length (List.filter hasMarker lines) /\
  map (withId 0) (parseNewStructure toLowerCase text)
    = omap (parseLine toLowerCase 0) (List.filter hasMarker lines) /\
  (forall n line, includes line (js "<H:") = false -> parseLine toLowerCase n line = None).
Proof.
  intros lines. unfold parseNewStructure. fold lines.
  assert (Hc : map (withId 0) (parseLines toLowerCase lines [])
               = omap (parseLine toLowerCase 0) (List.filter hasMarker lines)).
  { now rewrite parseLines_content, omap_filter_marker. }
  split; [|split].
  - rewrite <- (length_map (withId 0)), Hc. apply length_omap_le.
  - exact Hc.
  - intros n line. apply parseLine_no_marker.
Qed.

(** C8: the ids of the records are [0 .. N-1] in the order of the output,
    each record has its position as id, and the records are those of the
    lines, in the order of the lines, a line passed over taking no id. *)
Theorem parse_ids_dense (text : jsstring) :
  let out := parseNewStructure toLowerCase text in
  map id out = seq 0 (length out) /\
  (forall i f, nth_error out i = Some f -> id f = i) /\
  map (withId 0) out = omap (parseLine toLowerCase 0) (split chNewline text).
Proof.
  intros out.
  assert (Hids : map id out = seq 0 (length out)).
  { apply parseLines_ids. reflexivity. }
  split; [exact Hids|]. split.
  - intros i f Hf.
    assert (Hi : i < length out) by (apply nth_error_Some; congruence).
    pose proof (map_nth_error id _ _ Hf) as Hm.
    rewrite Hids in Hm.
    assert (Hs : nth_error (seq 0 (length out)) i = Some i).
    { rewrite (nth_error_nth' _ 0) by (now rewrite length_seq).
      now rewrite seq_nth. }
    congruence.
  - apply (parseLines_content (split chNewline text) []).
Qed.

(** The extension of a record is the lowercased last piece of its file name
    cut at the dots: what follows the last dot, or the whole name when it has
    no dot. *)
Lemma extensionOf_last_piece (name : jsstring) :
  (forall a b, name = a ++ chDot :: b -> ~ In chDot b -> extensionOf toLowerCase name = toLowerCase b) /\
  (~ In chDot name -> extensionOf toLowerCase name = toLowerCase name).
Proof.
  assert (Hor : forall e, (if isEmpty (toLowerCase e) then [] else toLowerCase e) = toLowerCase e).
  { intros e. destruct (toLowerCase e); reflexivity. }
  unfold extensionOf. split.
  - intros a b -> Hb. rewrite pop_split_app by assumption. apply Hor.
  - intros Hn. rewrite split_no_sep by assumption. apply Hor.
Qed.

Lemma parse_extension (text : jsstring) (f : MegaFile) :
  In f (parseNewStructure toLowerCase text) -> extension f = extensionOf toLowerCase (fileName f).
Proof.
  intros H. apply parse_In in H as (n & line & _ & Hp).
  now apply parseLine_fields in Hp.
Qed.

Lemma segments_Forall (p : jsstring) : Forall (fun seg => seg <> []) (segments p).
Proof.
  unfold segments. apply List.Forall_forall. intros seg H.
  apply filter_In in H as [_ H]. now destruct seg.
Qed.

(** Folder and name put together again: the segments of the path, a slash
    before each. *)
Lemma reconstruct_segments (text : jsstring) (f : MegaFile) :
  In f (parseNewStructure toLowerCase text) ->
  reconstruct f = chSlash :: join [chSlash] (segments (fullPath f)).
Proof.
  intros H. apply parse_In in H as (n & line & _ & Hp).
  apply parseLine_fields in Hp as (Hname & Hfolder & _).
  pose proof (segments_Forall (fullPath f)) as HF.
  apply pop_Some in Hname.
  unfold reconstruct. rewrite Hfolder.
  destruct (removelast (segments (fullPath f))) as [|seg0 front] eqn:Efront.
  - rewrite Hname. simpl. reflexivity.
  - rewrite Hname in HF |- *. rewrite length_app. simpl length.
    replace (1 <? S (length front) + 1) with true by (symmetry; apply Nat.ltb_lt; lia).
    assert (Hj : join [chSlash] (seg0 :: front) <> []).
    { apply join_not_nil; [discriminate|].
      apply Forall_app in HF. tauto. }
    destruct (strEq _ _) eqn:Eq.
    + apply strEq_eq in Eq. injection Eq as Eq. contradiction.
    + rewrite join_snoc by discriminate. reflexivity.
Qed.

(** C2, as the code has it: [fullPath] is the path as the line gives it, so
    folder and name put together again give its normal form, a slash and
    the segments that are not empty, joined by slashes; they give [fullPath]
    itself when it is in that form already. *)
Theorem reconstruct_fullPath (text : jsstring) (f : MegaFile) :
  In f (parseNewStructure toLowerCase text) ->
  reconstruct f = chSlash :: join [chSlash] (segments (fullPath f)) /\
  (isNormalPath (fullPath f) = true -> reconstruct f = fullPath f).
Proof.
  intros H. pose proof (reconstruct_segments _ _ H) as Hr.
  split; [exact Hr|].
  intros Hn. rewrite Hr.
  destruct (fullPath f) as [|c q]; [discriminate|].
  simpl in Hn. apply andb_prop in Hn as [Hc Hq]. apply N.eqb_eq in Hc. subst c.
  unfold segments. cbn [split]. rewrite N.eqb_refl. cbn [List.filter isEmpty negb].
  rewrite (filter_all _ _ Hq), join_split. reflexivity.
Qed.

End ParserFacts.

(** ** The sampler *)

Lemma loopInv_start (db : list MegaFile) : loopInv db [] ∅.
Proof.
  repeat split; simpl; try tauto.
  - intros H. now apply not_elem_of_empty in H.
  - constructor.
  - intros x [].
Qed.

Lemma loopInv_push (db batch : list MegaFile) (used : gset nat) (f : MegaFile) :
  loopInv db batch used -> In f db -> id f ∉ used ->
  loopInv db (batch ++ [f]) ({[ id f ]} ∪ used).
Proof.
  intros (Hu & Hnd & Hin) Hf Hfresh. repeat split.
  - rewrite elem_of_union, elem_of_singleton, map_app, in_app_iff, Hu. simpl.
    intros [-> | H]; auto.
  - rewrite elem_of_union, elem_of_singleton, map_app, in_app_iff, Hu. simpl.
    intros [H | [<- | []]]; auto.
  - rewrite map_app. simpl. apply List.NoDup_app; auto.
    + constructor; [intros [] | constructor].
    + intros x Hx [<- | []]. apply Hfresh, Hu, Hx.
  - intros x Hx. apply in_app_or in Hx as [Hx | [<- | []]]; auto.
Qed.

(** A run of the loop that ends gives [limit] records of the array, no two
    of one id. *)
Lemma drawLoop_sound (fuel : nat) (db : list MegaFile) (limit : nat) (rnd : nat -> nat) :
  forall (k : nat) (batch : list MegaFile) (used : gset nat) (out : list MegaFile),
  loopInv db batch used -> length batch <= limit ->
  drawLoop fuel db limit rnd k batch used = Some out ->
  length out = limit /\ List.NoDup (map id out) /\ incl out db.
Proof.
  induction fuel as [|fuel IH]; intros k batch used out Hinv Hlen; simpl.
  - destruct (Nat.ltb_spec (length batch) limit); [discriminate|].
    intros [= <-]. destruct Hinv as (_ & Hnd & Hin). repeat split; auto; lia.
  - destruct (Nat.ltb_spec (length batch) limit) as [Hlt|Hge].
    + destruct (nth_error db (rnd k)) as [f|] eqn:Ef; [|discriminate].
      destruct (decide (id f ∈ used)) as [Hused|Hfresh].
      * now apply IH.
      * apply IH.
        -- apply loopInv_push; auto. eapply nth_error_In; eauto.
        -- rewrite length_app. simpl. lia.
    + intros [= <-]. destruct Hinv as (_ & Hnd & Hin). repeat split; auto; lia.
Qed.

(** While the batch is shorter than the array, some record of the array has
    an id that is not used yet. *)
Lemma unused_record (db batch : list MegaFile) (used : gset nat) :
  loopInv db batch used -> length batch < length db -> List.NoDup (map id db) ->
  exists i f, nth_error db i = Some f /\ id f ∉ used.
Proof.
  intros (Hu & Hnd & Hin) Hlen Hdb.
  destruct (decide (Forall (fun f => id f ∈ used) db)) as [Hall|Hsome].
  - exfalso.
    assert (Hincl : incl (map id db) (map id batch)).
    { intros x Hx. apply in_map_iff in Hx as (f & <- & Hf).
      apply Hu. rewrite List.Forall_forall in Hall. now apply Hall. }
    apply (List.NoDup_incl_length Hdb) in Hincl.
    rewrite !length_map in Hincl. lia.
  - apply not_Forall_Exists in Hsome; [|intros x; apply _].
    apply List.Exists_exists in Hsome as (f & Hf & Hfresh).
    apply In_nth_error in Hf as (i & Hi).
    exists i, f. auto.
Qed.

(** From draw [k] on, the loop passes over the draws of used ids up to the
    first draw of an id not yet used, which it takes. *)
Lemma drawLoop_advance (db : list MegaFile) (limit : nat) (rnd : nat -> nat)
    (batch : list MegaFile) (used : gset nat) :
  drawsInRange (length db) rnd -> length batch < limit ->
  forall (d k : nat) (g : MegaFile),
  nth_error db (rnd (k + d)) = Some g -> id g ∉ used ->
  exists (n k' : nat) (f : MegaFile),
    In f db /\ (id f ∉ used) /\
    forall fuel,
      drawLoop (n + fuel) db limit rnd k batch used
      = drawLoop fuel db limit rnd k' (batch ++ [f]) ({[ id f ]} ∪ used).
Proof.
  intros Hrange Hlt. apply Nat.ltb_lt in Hlt.
  induction d as [|d IH]; intros k g Hg Hfresh.
  - rewrite Nat.add_0_r in Hg. exists 1, (S k), g.
    split; [eapply nth_error_In; eauto|]. split; [assumption|].
    intros fuel. simpl. rewrite Hlt, Hg.
    destruct (decide (id g ∈ used)); [contradiction | reflexivity].
  - destruct (nth_error db (rnd k)) as [f0|] eqn:E0.
    2:{ apply nth_error_None in E0. specialize (Hrange k). lia. }
    destruct (decide (id f0 ∈ used)) as [Hused|Hfresh0].
    + destruct (IH (S k) g) as (n & k' & f & Hf & Hff & Hrun); auto.
      { now rewrite Nat.add_succ_comm. }
      exists (S n), k', f. split; [assumption|]. split; [assumption|].
      intros fuel. simpl. rewrite Hlt, E0.
      destruct (decide (id f0 ∈ used)); [apply Hrun | contradiction].
    + exists 1, (S k), f0.
      split; [eapply nth_error_In; eauto|]. split; [assumption|].
      intros fuel. simpl. rewrite Hlt, E0.
      destruct (decide (id f0 ∈ used)); [contradiction | reflexivity].
Qed.

(** The loop ends when the ids of the array are distinct and every index
    keeps coming back among the draws. *)
Lemma drawLoop_terminates (db : list MegaFile) (limit : nat) (rnd : nat -> nat) :
  List.NoDup (map id db) -> drawsInRange (length db) rnd -> drawsRecur (length db) rnd ->
  limit <= length db ->
  forall (m k : nat) (batch : list MegaFile) (used : gset nat),
  limit - length batch <= m -> loopInv db batch used ->
  exists fuel out, drawLoop fuel db limit rnd k batch used = Some out.
Proof.
  intros Hdb Hrange Hrecur Hlimit.
  induction m as [|m IH]; intros k batch used Hm Hinv.
  - exists 0, batch. simpl.
    destruct (Nat.ltb_spec (length batch) limit); [lia | reflexivity].
  - destruct (Nat.ltb_spec (length batch) limit) as [Hlt|Hge].
    2:{ exists 0, batch. simpl.
        destruct (Nat.ltb_spec (length batch) limit); [lia | reflexivity]. }
    destruct (unused_record db batch used Hinv) as (i & g & Hg & Hfresh);
      [lia | assumption |].
    assert (Hi : i < length db) by (apply nth_error_Some; congruence).
    destruct (Hrecur k i Hi) as (j & Hkj & Hj).
    destruct (drawLoop_advance db limit rnd batch used Hrange Hlt (j - k) k g)
      as (n & k' & f & Hf & Hff & Hrun).
    { replace (k + (j - k)) with j by lia. now rewrite Hj. }
    { assumption. }
    destruct (IH k' (batch ++ [f]) ({[ id f ]} ∪ used)) as (fuel & out & Hout).
    { rewrite length_app. simpl. lia. }
    { now apply loopInv_push. }
    exists (n + fuel), out. now rewrite Hrun.
Qed.

(** On an empty record set [generateBatch] returns at its guard: nothing is
    drawn and nothing is written, whatever the state. *)
Lemma generateBatch_empty (count : nat) (rnd : nat -> nat) (fuel : nat) (s : State) :
  database s = [] -> generateBatch count rnd fuel s = Some s.
Proof. unfold generateBatch. now intros ->. Qed.

Lemma generateBatch_Some (count : nat) (rnd : nat -> nat) (fuel : nat) (s s' : State) :
  database s <> [] ->
  generateBatch count rnd fuel s = Some s' ->
  exists batch,
    drawLoop fuel (database s) (Nat.min count (length (database s))) rnd 0 [] ∅ = Some batch /\
    s' = {| database := database s; currentBatch := batch; currentFile := head batch |}.
Proof.
  unfold generateBatch. intros Hne.
  destruct (database s) as [|f0 db] eqn:Edb; [contradiction|].
  destruct (drawLoop _ _ _ _ _ _ _) as [batch|]; [|discriminate].
  intros [= <-]. exists batch. auto.
Qed.

Lemma head_In {A} (l : list A) (x : A) : head l = Some x -> In x l.
Proof. destruct l; simpl; [discriminate | intros [= ->]; now left]. Qed.

(** [pickRandomFile] on a draw [i] that is an index of the array. *)
Lemma pickRandomFile_draw (i : nat) (s : State) (r : MegaFile) :
  nth_error (database s) i = Some r ->
  pickRandomFile i s =
    (Some r,
     {| database := database s;
        currentBatch :=
          match find (fun f => id f =? id r) (currentBatch s) with
          | Some _ => currentBatch s
          | None => r :: currentBatch s
          end;
        currentFile := Some r |}).
Proof.
  unfold pickRandomFile. intros H.
  destruct (database s) as [|f0 db] eqn:Edb; [destruct i; discriminate|].
  now rewrite H.
Qed.

Lemma find_id_Some (r : MegaFile) (batch : list MegaFile) :
  (exists g, In g batch /\ id g = id r) ->
  exists g, find (fun f => id f =? id r) batch = Some g.
Proof.
  intros (g & Hg & Hid).
  destruct (find _ batch) as [g'|] eqn:E; [now exists g'|].
  apply (find_none _ _ E) in Hg. apply Nat.eqb_neq in Hg. contradiction.
Qed.

Lemma find_id_None (r : MegaFile) (batch : list MegaFile) :
  ~ (exists g, In g batch /\ id g = id r) ->
  find (fun f => id f =? id r) batch = None.
Proof.
  intros Hn. destruct (find _ batch) as [g|] eqn:E; [|reflexivity].
  apply find_some in E as [Hg Hid]. apply Nat.eqb_eq in Hid.
  exfalso. apply Hn. now exists g.
Qed.

Lemma stateInv_pick (i : nat) (s : State) :
  stateInv s -> stateInv (snd (pickRandomFile i s)).
Proof.
  intros Hinv. pose proof Hinv as (Hdb & Hin & Hnd & Hsel).
  destruct (nth_error (database s) i) as [r|] eqn:Er.
  - rewrite (pickRandomFile_draw _ _ _ Er). simpl.
    pose proof (nth_error_In _ _ Er) as Hr.
    destruct (find _ (currentBatch s)) as [g|] eqn:Ef.
    + apply find_some in Ef as [Hg Hid]. apply Nat.eqb_eq in Hid.
      repeat split; auto. intros f [= <-]. now exists g.
    + repeat split; simpl; auto.
      * intros x [<- | Hx]; auto.
      * constructor; [|assumption].
        intros Hx. apply in_map_iff in Hx as (g & Hid & Hg).
        apply (find_none _ _ Ef) in Hg. apply Nat.eqb_neq in Hg. contradiction.
      * intros f [= <-]. exists r. split; [now left | reflexivity].
  - unfold pickRandomFile. rewrite Er. now destruct (database s).
Qed.

Lemma stateInv_generateBatch (count : nat) (rnd : nat -> nat) (fuel : nat) (s s' : State) :
  stateInv s -> generateBatch count rnd fuel s = Some s' -> stateInv s'.
Proof.
  intros Hinv Hgen. pose proof Hinv as (Hdb & Hin & Hnd & Hsel).
  destruct (database s) as [|f0 db] eqn:Edb.
  - rewrite (generateBatch_empty _ _ _ _ Edb) in Hgen. now injection Hgen as <-.
  - apply generateBatch_Some in Hgen as (batch & Hloop & ->); [|congruence].
    apply drawLoop_sound in Hloop as (_ & Hnd' & Hin');
      [|apply loopInv_start | simpl; lia].
    repeat split; simpl; auto.
    + now rewrite Edb.
    + intros f Hf. exists f. split; [now apply head_In | reflexivity].
Qed.

Section ComponentFacts.

Variable toLowerCase : jsstring -> jsstring.

Lemma parse_ids_NoDup (text : jsstring) :
  List.NoDup (map id (parseNewStructure toLowerCase text)).
Proof.
  unfold parseNewStructure. rewrite parseLines_ids by reflexivity. apply seq_NoDup.
Qed.

Lemma stateInv_step (s s' : State) :
  stateInv s -> step toLowerCase s s' -> stateInv s'.
Proof.
  intros Hinv Hstep. pose proof Hinv as (Hdb & Hin & Hnd & Hsel).
  destruct Hstep as [s text | s i | s count rnd fuel s' Hgen | s file Hfile | s | s].
  - repeat split; simpl; [apply parse_ids_NoDup | intros x [] | constructor | discriminate].
  - now apply stateInv_pick.
  - eapply stateInv_generateBatch; eauto.
  - repeat split; simpl; auto.
    intros f [= <-]. now exists file.
  - repeat split; simpl; [assumption | intros x [] | constructor | discriminate].
  - repeat split; simpl; [constructor | intros x [] | constructor | discriminate].
Qed.

Lemma reachable_stateInv (s : State) : reachable toLowerCase s -> stateInv s.
Proof.
  induction 1 as [|s s' _ IH Hstep].
  - repeat split; simpl; [constructor | intros x [] | constructor | discriminate].
  - eapply stateInv_step; eauto.
Qed.

(** Without a record set there is neither a batch nor a selection. *)
Lemma stateInv_empty (s : State) :
  stateInv s -> database s = [] -> currentBatch s = [] /\ currentFile s = None.
Proof.
  intros (_ & Hin & _ & Hsel) Hdb. rewrite Hdb in Hin.
  assert (Hb : currentBatch s = []).
  { destruct (currentBatch s) as [|x l]; [reflexivity|]. destruct (Hin x). now left. }
  split; [assumption|].
  destruct (currentFile s) as [f|] eqn:E; [|reflexivity].
  destruct (Hsel f E) as (g & Hg & _). rewrite Hb in Hg. destruct Hg.
Qed.

(** C3: in every state of the component, the batch draw on an empty record
    set ends at once, for any count and any draws, and the state after it
    has an empty batch and no selection (and still no record set). *)
Theorem generateBatch_empty_database (s : State) (count : nat) (rnd : nat -> nat) (fuel : nat) :
  reachable toLowerCase s -> database s = [] ->
  exists s',
    generateBatch count rnd fuel s = Some s' /\
    currentBatch s' = [] /\ currentFile s' = None /\ database s' = [].
Proof.
  intros Hr Hdb. exists s. split; [now apply generateBatch_empty|].
  destruct (stateInv_empty s (reachable_stateInv s Hr) Hdb). auto.
Qed.

(** C10: in every state of the component (so after every upload, pick, batch
    draw, click on a batch entry, clear and reset) a selection that is not
    null has its id on some entry of the batch. *)
Theorem selection_in_batch (s : State) :
  reachable toLowerCase s ->
  forall f, currentFile s = Some f ->
  exists g, In g (currentBatch s) /\ id g = id f.
Proof.
  intros Hr. apply reachable_stateInv in Hr. apply Hr.
Qed.

(** Two picks in a row on a record set of one record [r], from any state:
    both draw [r], and the second leaves the batch as the first made it. *)
Lemma pick_twice (s : State) (r : MegaFile) :
  database s = [r] ->
  let s1 := snd (pickRandomFile 0 s) in
  let s2 := snd (pickRandomFile 0 s1) in
  fst (pickRandomFile 0 s) = Some r /\
  fst (pickRandomFile 0 s1) = Some r /\
  currentBatch s2 = currentBatch s1 /\
  currentBatch s1 =
    match find (fun f => id f =? id r) (currentBatch s) with
    | Some _ => currentBatch s
    | None => r :: currentBatch s
    end.
Proof.
  intros Hdb. cbv zeta.
  assert (H0 : nth_error (database s) 0 = Some r) by now rewrite Hdb.
  rewrite (pickRandomFile_draw 0 s r H0). simpl.
  set (b1 := match find _ (currentBatch s) with Some _ => _ | None => _ end).
  set (s1 := {| database := database s; currentBatch := b1; currentFile := Some r |}).
  assert (H1 : nth_error (database s1) 0 = Some r) by exact H0.
  rewrite (pickRandomFile_draw 0 s1 r H1). simpl.
  repeat split.
  assert (Hex : exists g, In g b1 /\ id g = id r).
  { subst b1. destruct (find _ (currentBatch s)) as [g|] eqn:E.
    - apply find_some in E as [Hg Hid]. apply Nat.eqb_eq in Hid. now exists g.
    - exists r. split; [now left | reflexivity]. }
  now destruct (find_id_Some r b1 Hex) as (g & ->).
Qed.

(** C7: [pickRandomFile] on an empty record set picks nothing and leaves the
    state; on a record set that is not empty the record drawn becomes the
    selection and goes to the front of the batch exactly when no entry of the
    batch has its id; so two picks in a row on a record set of one record
    both pick that record, the second adds nothing, and the batch is left
    with that one entry, from an empty batch and from any state of the
    component. *)
Theorem pickRandomFile_spec (s : State) :
  (forall i, database s = [] -> pickRandomFile i s = (None, s)) /\
  (forall i r, nth_error (database s) i = Some r ->
     let s' := snd (pickRandomFile i s) in
     fst (pickRandomFile i s) = Some r /\
     currentFile s' = Some r /\
     database s' = database s /\
     ((exists g, In g (currentBatch s) /\ id g = id r) -> currentBatch s' = currentBatch s) /\
     (~ (exists g, In g (currentBatch s) /\ id g = id r) -> currentBatch s' = r :: currentBatch s)) /\
  (forall i j r, database s = [r] -> i < 1 -> j < 1 ->
     let s1 := snd (pickRandomFile i s) in
     let s2 := snd (pickRandomFile j s1) in
     fst (pickRandomFile i s) = Some r /\
     fst (pickRandomFile j s1) = Some r /\
     currentBatch s2 = currentBatch s1 /\
     (currentBatch s = [] -> currentBatch s2 = [r]) /\
     (reachable toLowerCase s -> currentBatch s2 = [r])).
Proof.
  split; [|split].
  - intros i Hdb. unfold pickRandomFile. now rewrite Hdb.
  - intros i r Hr. cbv zeta. rewrite (pickRandomFile_draw _ _ _ Hr). simpl.
    repeat split.
    + intros Hex. now destruct (find_id_Some r _ Hex) as (g & ->).
    + intros Hn. now rewrite (find_id_None r _ Hn).
  - intros i j r Hdb Hi Hj. cbv zeta.
    assert (i = 0) by lia. assert (j = 0) by lia. subst i j.
    destruct (pick_twice s r Hdb) as (H1 & H2 & H21 & Hb1).
    repeat (split; [assumption|]).
    rewrite H21, Hb1. split.
    + intros ->. reflexivity.
    + intros Hreach.
      apply reachable_stateInv in Hreach as (_ & Hin & Hnd & _).
      rewrite Hdb in Hin.
      destruct (currentBatch s) as [|x l]; [reflexivity|].
      assert (x = r) by (destruct (Hin x); [now left | auto | contradiction]). subst x.
      simpl. rewrite Nat.eqb_refl.
      destruct l as [|y l]; [reflexivity|].
      assert (y = r) by (destruct (Hin y); [now right; left | auto | contradiction]). subst y.
      simpl in Hnd. inversion Hnd as [|? ? Hnot _]. destruct Hnot. now left.
Qed.

End ComponentFacts.

(** ** The batch draw *)

Lemma drawLoop_more_fuel (db : list MegaFile) (limit : nat) (rnd : nat -> nat)
    (fuel d : nat) :
  forall (k : nat) (batch : list MegaFile) (used : gset nat) (out : list MegaFile),
  drawLoop fuel db limit rnd k batch used = Some out ->
  drawLoop (fuel + d) db limit rnd k batch used = Some out.
Proof.
  induction fuel as [|fuel IH]; intros k batch used out; simpl.
  - destruct (length batch <? limit) eqn:E; [discriminate|].
    intros H. destruct d; simpl; now rewrite E.
  - destruct (length batch <? limit); [|auto].
    destruct (nth_error db (rnd k)) as [f|]; [|discriminate].
    destruct (decide (id f ∈ used)); apply IH.
Qed.

(** C4, as the code has it: on a record set that is not empty, a batch draw
    that ends gives [min count n] records of the record set, no two of one
    id, and when [count] is at least [n] their ids are the ids of the record
    set in some order; and the draw does end, given that the ids of the
    record set are distinct and that every index keeps coming back among the
    draws.  (On other draws it may give no batch at all.) *)
Theorem generateBatch_distinct (s : State) (count : nat) (rnd : nat -> nat) :
  database s <> [] ->
  (forall fuel s', generateBatch count rnd fuel s = Some s' ->
     length (currentBatch s') = Nat.min count (length (database s)) /\
     List.NoDup (map id (currentBatch s')) /\
     incl (currentBatch s') (database s) /\
     (length (database s) <= count ->
      Permutation (map id (currentBatch s')) (map id (database s)))) /\
  (List.NoDup (map id (database s)) ->
   drawsInRange (length (database s)) rnd ->
   drawsRecur (length (database s)) rnd ->
   exists fuel s', generateBatch count rnd fuel s = Some s').
Proof.
  intros Hne. split.
  - intros fuel s' Hgen.
    apply generateBatch_Some in Hgen as (batch & Hloop & ->); [|assumption].
    apply drawLoop_sound in Hloop as (Hlen & Hnd & Hin);
      [|apply loopInv_start | simpl; lia].
    simpl. repeat split; auto.
    intros Hcount. apply NoDup_Permutation_bis.
    + assumption.
    + rewrite !length_map, Hlen. lia.
    + now apply incl_map.
  - intros Hdb Hrange Hrecur.
    destruct (drawLoop_terminates (database s) (Nat.min count (length (database s)))
                rnd Hdb Hrange Hrecur (Nat.le_min_r _ _)
                (Nat.min count (length (database s))) 0 [] ∅)
      as (fuel & out & Hout); [simpl; lia | apply loopInv_start |].
    exists fuel. unfold generateBatch.
    destruct (database s) as [|f0 db] eqn:Edb; [contradiction|].
    rewrite Hout. eauto.
Qed.

(** C6, as the code has it: with [count] at most the number of records, the
    loop ends on every sequence of draws in which each index keeps coming
    back, the ids of the record set being distinct; from some number of
    iterations on the draw has its result.  (A sequence of draws that stops
    giving new records keeps the loop running.) *)
Theorem generateBatch_terminates (s : State) (count : nat) (rnd : nat -> nat) :
  count <= length (database s) ->
  List.NoDup (map id (database s)) ->
  drawsInRange (length (database s)) rnd ->
  drawsRecur (length (database s)) rnd ->
  exists fuel s', forall d, generateBatch count rnd (fuel + d) s = Some s'.
Proof.
  intros Hcount Hdb Hrange Hrecur.
  destruct (database s) as [|f0 db] eqn:Edb.
  - exists 0, s. intros d. now apply generateBatch_empty.
  - rewrite <- Edb in *.
    destruct (drawLoop_terminates (database s) (Nat.min count (length (database s)))
                rnd Hdb Hrange Hrecur (Nat.le_min_r _ _)
                (Nat.min count (length (database s))) 0 [] ∅)
      as (fuel & out & Hout); [simpl; lia | apply loopInv_start |].
    exists fuel. eexists. intros d. unfold generateBatch.
    rewrite (drawLoop_more_fuel _ _ _ _ d _ _ _ _ Hout).
    rewrite Edb at 1. reflexivity.
Qed.

(** ** Examples *)

Lemma oneFile_database : database oneFile = [file0].
Proof. reflexivity. Qed.

Lemma twoFiles_database : database twoFiles = [file0; file1].
Proof. reflexivity. Qed.

Lemma oneFile_reachable : reachable asciiToLowerCase oneFile.
Proof. eapply reach_step; [apply reach_init | apply step_upload]. Qed.

Lemma twoFiles_reachable : reachable asciiToLowerCase twoFiles.
Proof. eapply reach_step; [apply reach_init | apply step_upload]. Qed.

(** C1: the line [/docs/README <H:abc>] gives a record whose file name
    [README] has no dot and whose extension is [readme], not the empty
    string. *)
Theorem extension_of_name_without_dot :
  exists f,
    parseNewStructure asciiToLowerCase (js "/docs/README <H:abc>") = [f] /\
    fileName f = js "README" /\
    ~ In chDot (fileName f) /\
    extension f = js "readme" /\
    extension f <> [].
Proof.
  eexists. split; [reflexivity|]. simpl.
  repeat split; [| discriminate].
  intros H. unfold js, chDot in H. simpl in H.
  repeat (destruct H as [H | H]; [discriminate H|]). exact H.
Qed.

(** C2 fails on a path that does not begin with a slash: the line
    [docs/report.pdf <H:HANDLE1>] keeps [docs/report.pdf] as [fullPath], and
    folder and name give [/docs/report.pdf]. *)
Lemma reconstruct_not_fullPath :
  exists f,
    In f (parseNewStructure asciiToLowerCase (js "docs/report.pdf <H:HANDLE1>")) /\
    segments (fullPath f) <> [] /\
    fullPath f = js "docs/report.pdf" /\
    reconstruct f = js "/docs/report.pdf" /\
    reconstruct f <> fullPath f.
Proof.
  eexists. split; [left; reflexivity|]. simpl.
  repeat split; discriminate.
Qed.

Lemma reconstruct_fullPath_witness :
  In file0 (parseNewStructure asciiToLowerCase oneFileText) /\
  isNormalPath (fullPath file0) = true /\
  reconstruct file0 = fullPath file0.
Proof.
  assert (Hin : In file0 (parseNewStructure asciiToLowerCase oneFileText))
    by (left; reflexivity).
  split; [exact Hin|]. split; [reflexivity|].
  apply (proj2 (reconstruct_fullPath asciiToLowerCase oneFileText file0 Hin)).
  reflexivity.
Defined.

Lemma generateBatch_empty_database_witness :
  let s := resetApp (snd (pickRandomFile 1 twoFiles)) in
  reachable asciiToLowerCase s /\ database s = [] /\
  exists s',
    generateBatch 10 slowDraws 0 s = Some s' /\
    currentBatch s' = [] /\ currentFile s' = None /\ database s' = [].
Proof.
  intros s.
  assert (Hr : reachable asciiToLowerCase s).
  { apply (reach_step asciiToLowerCase (snd (pickRandomFile 1 twoFiles)));
      [|apply step_reset].
    apply (reach_step asciiToLowerCase twoFiles); [apply twoFiles_reachable|].
    apply step_pick. }
  assert (Hdb : database s = []) by reflexivity.
  split; [exact Hr|]. split; [exact Hdb|].
  exact (generateBatch_empty_database asciiToLowerCase s 10 slowDraws 0 Hr Hdb).
Defined.

Lemma same_draw_in_range (n : nat) (i : nat) : i < n -> drawsInRange n (fun _ => i).
Proof. intros H k. exact H. Qed.

Lemma slowDraws_in_range : drawsInRange 2 slowDraws.
Proof. intros k. unfold slowDraws. apply Nat.mod_upper_bound. discriminate. Qed.

Lemma slowDraws_recur : drawsRecur 2 slowDraws.
Proof.
  intros k i Hi. exists (4 * k + 2 * i). split; [lia|].
  unfold slowDraws.
  replace (4 * k + 2 * i) with ((2 * k + i) * 2) by lia.
  rewrite Nat.div_mul by discriminate.
  replace (2 * k + i) with (i + k * 2) by lia.
  rewrite Nat.Div0.mod_add. now apply Nat.mod_small.
Qed.

Lemma twoFiles_ids_NoDup : List.NoDup (map id (database twoFiles)).
Proof.
  rewrite twoFiles_database. simpl.
  constructor; [intros [H | []]; discriminate H|].
  constructor; [intros [] | constructor].
Qed.

(** With two records, draws that give index 1 every time take the second
    record once and are passed over ever after. *)
Lemma drawLoop_second_draw (fuel k : nat) :
  drawLoop fuel [file0; file1] 2 (fun _ => 1) k [file1] ({[ 1 ]} ∪ ∅) = None.
Proof.
  revert k; induction fuel as [|fuel IH]; intros k; [reflexivity|].
  cbn [drawLoop length Nat.ltb Nat.leb nth_error].
  destruct (decide (id file1 ∈ ({[ 1 ]} ∪ ∅ : gset nat))) as [_|Hn].
  - apply IH.
  - exfalso. apply Hn. apply elem_of_union_l, elem_of_singleton. reflexivity.
Qed.

(** C4 fails on such draws: the record set has two records with the ids 0
    and 1, every draw is an index of it, and the draw of a batch of 10 is
    still running after any number of iterations: it gives no batch. *)
Lemma generateBatch_no_batch :
  database twoFiles <> [] /\
  List.NoDup (map id (database twoFiles)) /\
  drawsInRange (length (database twoFiles)) (fun _ => 1) /\
  forall fuel, generateBatch 10 (fun _ => 1) fuel twoFiles = None.
Proof.
  split; [discriminate|]. split; [exact twoFiles_ids_NoDup|].
  split; [apply same_draw_in_range; rewrite twoFiles_database; apply Nat.lt_succ_diag_r|].
  intros fuel. unfold generateBatch. rewrite twoFiles_database.
  cbn [length Nat.min].
  destruct fuel as [|fuel]; [reflexivity|].
  cbn [drawLoop length Nat.ltb Nat.leb nth_error].
  destruct (decide (id file1 ∈ (∅ : gset nat))) as [Hin|_].
  - now apply not_elem_of_empty in Hin.
  - change ([] ++ [file1]) with [file1]. change (id file1) with 1.
    now rewrite drawLoop_second_draw.
Qed.

Lemma generateBatch_distinct_witness :
  let s3 := {| database := [file0; file1]; currentBatch := [file0; file1];
               currentFile := Some file0 |} in
  database twoFiles <> [] /\
  generateBatch 10 slowDraws 3 twoFiles = Some s3 /\
  length (currentBatch s3) = Nat.min 10 (length (database twoFiles)) /\
  List.NoDup (map id (currentBatch s3)) /\
  incl (currentBatch s3) (database twoFiles) /\
  length (database twoFiles) <= 10 /\
  Permutation (map id (currentBatch s3)) (map id (database twoFiles)) /\
  List.NoDup (map id (database twoFiles)) /\
  drawsInRange (length (database twoFiles)) slowDraws /\
  drawsRecur (length (database twoFiles)) slowDraws /\
  exists fuel s', generateBatch 10 slowDraws fuel twoFiles = Some s'.
Proof.
  intros s3.
  assert (Hne : database twoFiles <> []) by discriminate.
  assert (Hgen : generateBatch 10 slowDraws 3 twoFiles = Some s3) by reflexivity.
  assert (Hcount : length (database twoFiles) <= 10).
  { rewrite twoFiles_database. simpl. repeat constructor. }
  assert (Hnd : List.NoDup (map id (database twoFiles))) by exact twoFiles_ids_NoDup.
  assert (Hrange : drawsInRange (length (database twoFiles)) slowDraws)
    by exact slowDraws_in_range.
  assert (Hrecur : drawsRecur (length (database twoFiles)) slowDraws)
    by exact slowDraws_recur.
  destruct (generateBatch_distinct twoFiles 10 slowDraws Hne) as [Hends Hruns].
  destruct (Hends 3 s3 Hgen) as (Hlen & Hnd3 & Hin3 & Hperm).
  split; [exact Hne|]. split; [exact Hgen|]. split; [exact Hlen|].
  split; [exact Hnd3|]. split; [exact Hin3|]. split; [exact Hcount|].
  split; [exact (Hperm Hcount)|]. split; [exact Hnd|].
  split; [exact Hrange|]. split; [exact Hrecur|].
  exact (Hruns Hnd Hrange Hrecur).
Defined.

(** With two records and [count = 2], draws that give index 0 every time
    take the first record once and are passed over ever after. *)
Lemma drawLoop_same_draw (fuel k : nat) :
  drawLoop fuel [file0; file1] 2 (fun _ => 0) k [file0] ({[ 0 ]} ∪ ∅) = None.
Proof.
  revert k; induction fuel as [|fuel IH]; intros k; [reflexivity|].
  cbn [drawLoop length Nat.ltb Nat.leb nth_error].
  destruct (decide (id file0 ∈ ({[ 0 ]} ∪ ∅ : gset nat))) as [_|Hn].
  - apply IH.
  - exfalso. apply Hn. apply elem_of_union_l, elem_of_singleton. reflexivity.
Qed.

(** C6 fails on such draws: [count] is the number of records, and the loop
    is still running after any number of iterations. *)
Lemma generateBatch_same_draw_forever :
  2 <= length (database twoFiles) /\
  forall fuel, generateBatch 2 (fun _ => 0) fuel twoFiles = None.
Proof.
  split; [rewrite twoFiles_database; apply Nat.le_refl|].
  intros fuel. unfold generateBatch. rewrite twoFiles_database.
  cbn [length Nat.min].
  destruct fuel as [|fuel]; [reflexivity|].
  cbn [drawLoop length Nat.ltb Nat.leb nth_error].
  destruct (decide (id file0 ∈ (∅ : gset nat))) as [Hin|_].
  - now apply not_elem_of_empty in Hin.
  - change ([] ++ [file0]) with [file0]. change (id file0) with 0.
    now rewrite drawLoop_same_draw.
Qed.

Lemma generateBatch_terminates_witness :
  2 <= length (database twoFiles) /\
  List.NoDup (map id (database twoFiles)) /\
  drawsInRange (length (database twoFiles)) slowDraws /\
  drawsRecur (length (database twoFiles)) slowDraws /\
  slowDraws 1 = slowDraws 0 /\
  exists fuel s', forall d, generateBatch 2 slowDraws (fuel + d) twoFiles = Some s'.
Proof.
  assert (Hc : 2 <= length (database twoFiles)).
  { rewrite twoFiles_database. apply Nat.le_refl. }
  assert (Hnd : List.NoDup (map id (database twoFiles))) by exact twoFiles_ids_NoDup.
  assert (Hrange : drawsInRange (length (database twoFiles)) slowDraws)
    by exact slowDraws_in_range.
  assert (Hrecur : drawsRecur (length (database twoFiles)) slowDraws)
    by exact slowDraws_recur.
  split; [exact Hc|]. split; [exact Hnd|]. split; [exact Hrange|].
  split; [exact Hrecur|]. split; [reflexivity|].
  exact (generateBatch_terminates twoFiles 2 slowDraws Hc Hnd Hrange Hrecur).
Defined.

Lemma pickRandomFile_spec_witness :
  database oneFile = [file0] /\ currentBatch oneFile = [] /\
  reachable asciiToLowerCase oneFile /\
  let s1 := snd (pickRandomFile 0 oneFile) in
  let s2 := snd (pickRandomFile 0 s1) in
  fst (pickRandomFile 0 oneFile) = Some file0 /\
  fst (pickRandomFile 0 s1) = Some file0 /\
  currentBatch s2 = [file0].
Proof.
  split; [exact oneFile_database|]. split; [reflexivity|].
  split; [exact oneFile_reachable|].
  destruct (proj2 (proj2 (pickRandomFile_spec asciiToLowerCase oneFile))
              0 0 file0 oneFile_database Nat.lt_0_1 Nat.lt_0_1)
    as (H1 & H2 & _ & _ & Hreach).
  split; [exact H1|]. split; [exact H2|].
  exact (Hreach oneFile_reachable).
Defined.

Lemma selection_in_batch_witness :
  let s := snd (pickRandomFile 1 twoFiles) in
  reachable asciiToLowerCase s /\ currentFile s = Some file1 /\
  exists g, In g (currentBatch s) /\ id g = id file1.
Proof.
  intros s.
  assert (Hr : reachable asciiToLowerCase s).
  { eapply reach_step; [apply twoFiles_reachable | apply step_pick]. }
  assert (Hc : currentFile s = Some file1) by reflexivity.
  split; [exact Hr|]. split; [exact Hc|].
  exact (selection_in_batch asciiToLowerCase s Hr file1 Hc).
Defined.

Lemma parse_only_marked_lines_witness :
  includes (js "mega> ls -la") (js "<H:") = false /\
  parseLine asciiToLowerCase 0 (js "mega> ls -la") = None.
Proof.
  assert (H : includes (js "mega> ls -la") (js "<H:") = false) by reflexivity.
  split; [exact H|].
  exact (proj2 (proj2 (parse_only_marked_lines asciiToLowerCase twoFilesText))
           0 (js "mega> ls -la") H).
Defined.

Lemma parse_ids_dense_witness :
  nth_error (parseNewStructure asciiToLowerCase twoFilesText) 1 = Some file1 /\
  id file1 = 1.
Proof.
  assert (H : nth_error (parseNewStructure asciiToLowerCase twoFilesText) 1 = Some file1)
    by reflexivity.
  split; [exact H|].
  exact (proj1 (proj2 (parse_ids_dense asciiToLowerCase twoFilesText)) 1 file1 H).
Defined.

(** The pattern on lines with more than one handle token: the path group
    is the shortest one after which the rest of the line is one handle
    token. *)
Example matchLine_examples :
  matchLine (js "a <H:b <H:c>") = Some (js "a", js "b <H:c") /\
  matchLine (js "x <H:a>b <H:c>") = Some (js "x <H:a>b", js "c") /\
  matchLine (js "<H:abc>") = None /\
  matchLine (js "/a.txt <H:>") = None /\
  matchLine (js "/a.txt<H:h0>") = None.
Proof. repeat split. Qed.

(** The listing of the specification: the prompt line gives no record, the
    line that comes twice gives two, and the third record has the extension
    [png] and the folder [/pics]. *)
Example parse_scenario :
  let out := parseNewStructure asciiToLowerCase
      (js ("mega> ls -la" ++ nl ++ "/docs/report.pdf <H:HANDLE1>" ++ nl
           ++ "/docs/report.pdf <H:HANDLE1>" ++ nl ++ "/pics/img.PNG <H:HANDLE2>")) in
  map id out = [0; 1; 2] /\
  map extension out = [js "pdf"; js "pdf"; js "png"] /\
  map type out = [js "document"; js "document"; js "image"] /\
  map folderPath out = [js "/docs"; js "/docs"; js "/pics"].
Proof. repeat split. Qed.

(** * Further properties *)

(** ** Runs of code units *)

Lemma takeWhile_dropWhile {A} (p : A -> bool) (l : list A) :
  takeWhile p l ++ dropWhile p l = l.
Proof.
  induction l as [|x l IH]; simpl; [reflexivity|].
  destruct (p x); simpl; [now rewrite IH | reflexivity].
Qed.

Lemma takeWhile_Forall {A} (p : A -> bool) (l : list A) :
  Forall (fun x => p x = true) (takeWhile p l).
Proof.
  induction l as [|x l IH]; simpl; [constructor|].
  destruct (p x) eqn:E; constructor; assumption.
Qed.

Lemma dropWhile_head {A} (p : A -> bool) (l : list A) (x : A) (r : list A) :
  dropWhile p l = x :: r -> p x = false.
Proof.
  induction l as [|y l IH]; simpl; [discriminate|].
  destruct (p y) eqn:E; [exact IH|]. now intros [= <- _].
Qed.

Lemma dropWhile_In {A} (p : A -> bool) (l : list A) (x : A) :
  In x (dropWhile p l) -> In x l.
Proof.
  intros H. rewrite <- (takeWhile_dropWhile p l). apply in_or_app. now right.
Qed.

Lemma takeWhile_stop {A} (p : A -> bool) (a : list A) (x : A) (r : list A) :
  Forall (fun c => p c = true) a -> p x = false ->
  takeWhile p (a ++ x :: r) = a /\ dropWhile p (a ++ x :: r) = x :: r.
Proof.
  intros Ha Hx. induction Ha as [|c a Hc _ IH]; simpl.
  - now rewrite Hx.
  - rewrite Hc. destruct IH as [-> ->]. auto.
Qed.

Lemma dropWhile_all {A} (p : A -> bool) (a r : list A) :
  Forall (fun c => p c = true) a -> dropWhile p (a ++ r) = dropWhile p r.
Proof.
  intros Ha. induction Ha as [|c a Hc _ IH]; simpl; [reflexivity|]. now rewrite Hc.
Qed.

Lemma dropWhile_app_keep {A} (p : A -> bool) (b r : list A) :
  dropWhile p b <> [] -> dropWhile p (b ++ r) = dropWhile p b ++ r.
Proof.
  induction b as [|x b IH]; simpl; [contradiction|].
  destruct (p x); [exact IH | reflexivity].
Qed.

Lemma dropWhile_last {A} (p : A -> bool) (b : list A) (y : A) :
  p y = false -> dropWhile p (b ++ [y]) <> [].
Proof.
  intros Hy. induction b as [|x b IH]; simpl.
  - now rewrite Hy.
  - destruct (p x); [exact IH | discriminate].
Qed.

(** ** The line pattern *)

Lemma js_marker : js "<H:" = [chLt; chH; chColon].
Proof. reflexivity. Qed.

Lemma matchHandle_sound (s h : jsstring) :
  matchHandle s = Some h ->
  exists ws,
    s = ws ++ js "<H:" ++ h ++ [chGt] /\
    ws <> [] /\ Forall whiteSpace ws /\ h <> [] /\ ~ In chGt h.
Proof.
  unfold matchHandle.
  pose proof (takeWhile_dropWhile isWhiteSpace s) as Hs.
  pose proof (takeWhile_Forall isWhiteSpace s) as Hws.
  destruct (takeWhile isWhiteSpace s) as [|w ws] eqn:Ews; [discriminate|].
  destruct (dropWhile isWhiteSpace s) as [|a [|b [|c r]]] eqn:Ed; try discriminate.
  destruct ((a =? chLt)%N && (b =? chH)%N && (c =? chColon)%N) eqn:Eabc; [|discriminate].
  pose proof (takeWhile_dropWhile (fun x => negb (x =? chGt)%N) r) as Hr.
  pose proof (takeWhile_Forall (fun x => negb (x =? chGt)%N) r) as Hh.
  destruct (takeWhile (fun x => negb (x =? chGt)%N) r) as [|h0 h1] eqn:Eh; [discriminate|].
  destruct (dropWhile (fun x => negb (x =? chGt)%N) r) as [|x [|? ?]] eqn:Er; try discriminate.
  intros [= <-].
  apply andb_prop in Eabc as [Eab Ec]. apply andb_prop in Eab as [Ea Eb].
  apply N.eqb_eq in Ea, Eb, Ec. subst a b c.
  apply dropWhile_head in Er. apply negb_false_iff, N.eqb_eq in Er. subst x.
  exists (w :: ws). rewrite js_marker. repeat split.
  - rewrite <- Hs, <- Hr. reflexivity.
  - discriminate.
  - exact Hws.
  - discriminate.
  - intros Hin. rewrite List.Forall_forall in Hh. apply Hh in Hin.
    now rewrite N.eqb_refl in Hin.
Qed.

Lemma matchHandle_complete (ws h : jsstring) :
  ws <> [] -> Forall whiteSpace ws -> h <> [] -> ~ In chGt h ->
  matchHandle (ws ++ js "<H:" ++ h ++ [chGt]) = Some h.
Proof.
  intros Hne Hws Hh Hgt. unfold matchHandle. rewrite js_marker.
  destruct (takeWhile_stop isWhiteSpace ws chLt ([chH; chColon] ++ h ++ [chGt]) Hws eq_refl)
    as [Ht Hd].
  simpl app in *. rewrite Ht, Hd.
  destruct ws as [|w ws]; [contradiction|].
  rewrite !N.eqb_refl. cbn [andb].
  assert (Hall : Forall (fun c => negb (c =? chGt)%N = true) h).
  { apply List.Forall_forall. intros c Hc. apply negb_true_iff, N.eqb_neq.
    intros ->. contradiction. }
  destruct (takeWhile_stop (fun x => negb (x =? chGt)%N) h chGt [] Hall) as [Ht' Hd'].
  { now rewrite N.eqb_refl. }
  unfold jsstring, codeUnit in *. rewrite Ht', Hd'.
  destruct h; [contradiction | reflexivity].
Qed.

Lemma matchPath_sound (s : jsstring) :
  forall seen p h, matchPath seen s = Some (p, h) ->
  exists p' rest,
    p = rev seen ++ p' /\ s = p' ++ rest /\ p' <> [] /\
    Forall notTerminator p' /\ matchHandle rest = Some h.
Proof.
  induction s as [|c s IH]; intros seen p h; simpl; [discriminate|].
  destruct (isLineTerminator c) eqn:Ec; [discriminate|].
  destruct (matchHandle s) as [h0|] eqn:Eh.
  - intros [= <- <-]. exists [c], s. simpl. repeat split; auto; try discriminate.
  - intros H. apply IH in H as (p' & rest & -> & -> & _ & Hp' & Hrest).
    exists (c :: p'), rest. simpl. rewrite <- app_assoc. repeat split; auto; try discriminate.
Qed.

(** The lazy group stops at the first place where the rest of the pattern
    fits. *)
Lemma matchPath_first (p' rest h' : jsstring) :
  p' <> [] -> Forall notTerminator p' -> matchHandle rest = Some h' ->
  forall seen, exists p h q,
    matchPath seen (p' ++ rest) = Some (rev seen ++ p, h) /\ p' = p ++ q /\ p <> [].
Proof.
  intros Hne Hp Hrest. induction Hp as [|c p'' Hc Hp IH]; [contradiction|].
  intros seen. simpl. rewrite Hc.
  destruct (matchHandle (p'' ++ rest)) as [h0|] eqn:Eh.
  - exists [c], h0, p''. simpl. repeat split; auto; discriminate.
  - destruct p'' as [|d p3].
    + simpl in Eh. congruence.
    + destruct (IH ltac:(discriminate) (c :: seen)) as (p & h & q & Hm & Hq & Hpne).
      exists (c :: p), h, q. rewrite Hm. simpl. rewrite <- app_assoc. simpl.
      repeat split; [now rewrite Hq | discriminate].
Qed.

Lemma matchPath_exact (p rest h : jsstring) :
  p <> [] -> Forall notTerminator p -> matchHandle rest = Some h ->
  (forall a b, p = a ++ b -> a <> [] -> b <> [] -> matchHandle (b ++ rest) = None) ->
  forall seen, matchPath seen (p ++ rest) = Some (rev seen ++ p, h).
Proof.
  intros Hne Hp Hrest. induction Hp as [|c p'' Hc Hp IH]; [contradiction|].
  intros Hsplit seen. simpl. rewrite Hc.
  destruct p'' as [|d p3].
  - simpl. now rewrite Hrest.
  - rewrite (Hsplit [c] (d :: p3)) by (reflexivity || discriminate).
    rewrite IH; [| discriminate |].
    + simpl. now rewrite <- app_assoc.
    + intros a b Hab Ha Hb. apply (Hsplit (c :: a) b); [now rewrite Hab | discriminate | exact Hb].
Qed.

(** Inside a path that holds no [<] and does not end in white space, the
    rest of the pattern fits nowhere. *)
Lemma matchHandle_inside_path (b0 : jsstring) (y : codeUnit) (rest : jsstring) :
  isWhiteSpace y = false -> ~ In chLt (b0 ++ [y]) ->
  matchHandle (b0 ++ [y] ++ rest) = None.
Proof.
  intros Hy Hlt. unfold matchHandle.
  destruct (takeWhile isWhiteSpace (b0 ++ [y] ++ rest)); [reflexivity|].
  rewrite app_assoc, dropWhile_app_keep by now apply dropWhile_last.
  pose proof (dropWhile_last isWhiteSpace b0 y Hy) as Hd.
  destruct (dropWhile isWhiteSpace (b0 ++ [y])) as [|a d] eqn:Ed; [contradiction|].
  assert (Ha : (a =? chLt)%N = false).
  { apply N.eqb_neq. intros ->. apply Hlt.
    apply (dropWhile_In isWhiteSpace). rewrite Ed. now left. }
  simpl. destruct (d ++ rest) as [|b1 [|c1 r]]; try reflexivity.
  now rewrite Ha.
Qed.

(** X1: a line that the pattern accepts is its path group, a run of white
    space, [<H:], its handle group and [>]: the path group is not empty and
    holds no line terminator, the handle group is not empty and holds no
    [>]. *)
Theorem matchLine_decomposes (s p h : jsstring) :
  matchLine s = Some (p, h) ->
  exists ws,
    s = p ++ ws ++ js "<H:" ++ h ++ [chGt] /\
    p <> [] /\ Forall notTerminator p /\
    ws <> [] /\ Forall whiteSpace ws /\
    h <> [] /\ ~ In chGt h.
Proof.
  unfold matchLine. intros H.
  apply matchPath_sound in H as (p' & rest & -> & -> & Hne & Hp & Hrest).
  apply matchHandle_sound in Hrest as (ws & -> & Hws).
  exists ws. simpl. tauto.
Qed.

(** X2: the pattern accepts every line of that form, and its path group is
    the shortest that leaves such a rest: a prefix of the path of any way to
    read the line. *)
Theorem matchLine_shortest_path (p' ws h' : jsstring) :
  p' <> [] -> Forall notTerminator p' ->
  ws <> [] -> Forall whiteSpace ws ->
  h' <> [] -> ~ In chGt h' ->
  exists p h q,
    matchLine (p' ++ ws ++ js "<H:" ++ h' ++ [chGt]) = Some (p, h) /\
    p' = p ++ q /\ p <> [].
Proof.
  intros Hp Hterm Hws Hspace Hh Hgt. unfold matchLine.
  apply (matchPath_first p' _ h' Hp Hterm (matchHandle_complete ws h' Hws Hspace Hh Hgt) []).
Qed.

(** ** Trimming and searching *)

Lemma dropWhile_length {A} (p : A -> bool) (l : list A) :
  length (dropWhile p l) <= length l.
Proof.
  induction l as [|x l IH]; simpl; [lia|]. destruct (p x); simpl; lia.
Qed.

Lemma dropWhile_nil_Forall {A} (p : A -> bool) (l : list A) :
  dropWhile p l = [] -> Forall (fun c => p c = true) l.
Proof.
  induction l as [|x l IH]; simpl; [constructor|].
  destruct (p x) eqn:E; [|discriminate]. intros H. constructor; auto.
Qed.

Lemma trim_In (s : jsstring) (x : codeUnit) : In x (trim s) -> In x s.
Proof.
  unfold trim, trimEnd, trimStart. intros H.
  apply in_rev, dropWhile_In, in_rev, dropWhile_In in H. exact H.
Qed.

Lemma trim_keeps (x y : codeUnit) (r r' : jsstring) :
  isWhiteSpace x = false -> isWhiteSpace y = false ->
  x :: r = r' ++ [y] -> trim (x :: r) = x :: r.
Proof.
  intros Hx Hy Heq. unfold trim, trimStart, trimEnd. simpl dropWhile at 2.
  rewrite Hx, Heq, rev_app_distr. simpl. rewrite Hy. simpl.
  now rewrite rev_involutive.
Qed.

(** A string that [trim] leaves as it is begins and ends outside white
    space. *)
Lemma trim_fixed_ends (p : jsstring) :
  trim p = p -> p <> [] ->
  (exists x r, p = x :: r /\ isWhiteSpace x = false) /\
  (exists r y, p = r ++ [y] /\ isWhiteSpace y = false).
Proof.
  unfold trim, trimEnd, trimStart. intros Hfix Hne.
  set (t := dropWhile isWhiteSpace p) in *.
  set (d := dropWhile isWhiteSpace (rev t)) in *.
  assert (Hlen : length t = length p).
  { pose proof (dropWhile_length isWhiteSpace p).
    pose proof (dropWhile_length isWhiteSpace (rev t)).
    fold t in H. fold d in H0. rewrite length_rev in H0.
    rewrite <- Hfix, length_rev in *. lia. }
  split.
  - destruct p as [|x r]; [contradiction|]. exists x, r. split; [reflexivity|].
    destruct (isWhiteSpace x) eqn:Ex; [|reflexivity].
    subst t. simpl in Hlen. rewrite Ex in Hlen.
    pose proof (dropWhile_length isWhiteSpace r). lia.
  - destruct d as [|y d'] eqn:Ed.
    + simpl in Hfix. congruence.
    + exists (rev d'), y. split; [now rewrite <- Hfix|].
      now apply dropWhile_head in Ed.
Qed.

Lemma trim_idempotent (s : jsstring) : trim (trim s) = trim s.
Proof.
  destruct (trim s) as [|x r] eqn:E; [reflexivity|].
  unfold trim, trimEnd, trimStart in E.
  set (t := dropWhile isWhiteSpace s) in *.
  pose proof (takeWhile_dropWhile isWhiteSpace (rev t)) as Hsplit.
  destruct (dropWhile isWhiteSpace (rev t)) as [|y d] eqn:Ed; [discriminate|].
  pose proof (dropWhile_head _ _ _ _ Ed) as Hy.
  assert (Ht : t = (x :: r) ++ rev (takeWhile isWhiteSpace (rev t))).
  { rewrite <- E, <- rev_app_distr, Hsplit. now rewrite rev_involutive. }
  assert (Hx : isWhiteSpace x = false).
  { apply (dropWhile_head isWhiteSpace s x (r ++ rev (takeWhile isWhiteSpace (rev t)))).
    fold t. exact Ht. }
  apply (trim_keeps x y r (rev d)); [exact Hx | exact Hy|].
  rewrite <- E. reflexivity.
Qed.

Lemma startsWith_self (pat b : jsstring) : startsWith (pat ++ b) pat = true.
Proof.
  induction pat as [|c pat IH]; simpl; [now destruct b|]. now rewrite N.eqb_refl.
Qed.

Lemma includes_unfold (s pat : jsstring) :
  includes s pat =
  startsWith s pat || match s with [] => false | _ :: s' => includes s' pat end.
Proof. destruct s; reflexivity. Qed.

Lemma includes_inside (a pat b : jsstring) : includes (a ++ pat ++ b) pat = true.
Proof.
  induction a as [|x a IH].
  - simpl app. rewrite includes_unfold, startsWith_self. reflexivity.
  - simpl. rewrite IH. apply orb_true_r.
Qed.

Lemma startsWith_foreign_back (post : jsstring) :
  forall l pat, (forall c, In c post -> ~ In c pat) ->
  startsWith (l ++ post) pat = startsWith l pat.
Proof.
  intros l; induction l as [|x l IH]; intros pat Hpost.
  - destruct pat as [|q pat]; [now destruct post|].
    destruct post as [|c post]; [reflexivity|]. simpl.
    replace (c =? q)%N with false; [reflexivity|].
    symmetry. apply N.eqb_neq. intros ->. apply (Hpost q); now left.
  - destruct pat as [|q pat]; [reflexivity|]. simpl.
    rewrite IH; [reflexivity|]. intros c Hc Hin. apply (Hpost c Hc). now right.
Qed.

Lemma includes_foreign (post pat : jsstring) :
  pat <> [] -> (forall c, In c post -> ~ In c pat) -> includes post pat = false.
Proof.
  intros Hpat. induction post as [|c post IH]; intros Hpost.
  - destruct pat; [contradiction | reflexivity].
  - destruct pat as [|q pat]; [contradiction|].
    cbn [includes startsWith].
    replace (c =? q)%N with false.
    + apply IH. intros c' Hc'. apply Hpost. now right.
    + symmetry. apply N.eqb_neq. intros ->. apply (Hpost q); now left.
Qed.

Lemma includes_foreign_back (post pat : jsstring) :
  pat <> [] -> (forall c, In c post -> ~ In c pat) ->
  forall l, includes (l ++ post) pat = includes l pat.
Proof.
  intros Hpat Hpost l. induction l as [|x l IH].
  - simpl app. rewrite (includes_foreign post pat Hpat Hpost).
    destruct pat; [contradiction | reflexivity].
  - pose proof (startsWith_foreign_back post (x :: l) pat Hpost) as Hs.
    cbn [app includes] in *. now rewrite IH, Hs.
Qed.

Lemma includes_foreign_front (pre pat l : jsstring) :
  pat <> [] -> (forall c, In c pre -> ~ In c pat) ->
  includes (pre ++ l) pat = includes l pat.
Proof.
  intros Hpat. induction pre as [|c pre IH]; intros Hpre; [reflexivity|].
  destruct pat as [|q pat]; [contradiction|].
  cbn [app includes startsWith].
  replace (c =? q)%N with false.
  - apply IH. intros c' Hc'. apply Hpre. now right.
  - symmetry. apply N.eqb_neq. intros ->. apply (Hpre q); now left.
Qed.

Lemma whiteSpace_not_marker (ws : jsstring) :
  Forall whiteSpace ws -> forall c, In c ws -> ~ In c (js "<H:").
Proof.
  intros Hws c Hc Hin. rewrite List.Forall_forall in Hws. specialize (Hws c Hc).
  unfold whiteSpace in Hws. rewrite js_marker in Hin.
  destruct Hin as [<- | [<- | [<- | []]]]; vm_compute in Hws; discriminate.
Qed.

Lemma trim_whiteSpace_around (pre line post : jsstring) :
  Forall whiteSpace pre -> Forall whiteSpace post ->
  trim (pre ++ line ++ post) = trim line.
Proof.
  intros Hpre Hpost. unfold trim, trimStart, trimEnd.
  rewrite (dropWhile_all isWhiteSpace pre _ Hpre).
  destruct (dropWhile isWhiteSpace line) as [|x t] eqn:Et.
  - apply dropWhile_nil_Forall in Et.
    rewrite (dropWhile_all isWhiteSpace line _ Et).
    rewrite <- (app_nil_r post), (dropWhile_all isWhiteSpace post _ Hpost). reflexivity.
  - rewrite dropWhile_app_keep by (rewrite Et; discriminate).
    rewrite Et, rev_app_distr.
    rewrite (dropWhile_all isWhiteSpace (rev post)); [reflexivity|].
    now apply Forall_rev.
Qed.

Lemma trim_whiteSpace (h : jsstring) : Forall whiteSpace h -> trim h = [].
Proof.
  intros Hh. pose proof (trim_whiteSpace_around h [] [] Hh (List.Forall_nil _)) as H.
  simpl in H. now rewrite app_nil_r in H.
Qed.

Lemma split_segment_no_sep (sep : codeUnit) (s seg : jsstring) :
  In seg (split sep s) -> ~ In sep seg.
Proof.
  revert seg; induction s as [|c s IH]; simpl; intros seg.
  - intros [<- | []] [].
  - destruct (N.eqb_spec c sep) as [->|Hne].
    + intros [<- | H]; [intros [] | now apply IH].
    + pose proof (split_not_nil sep s) as Hnil.
      destruct (split sep s) as [|seg0 rest]; [contradiction|].
      intros [<- | H].
      * intros [Heq | Hin]; [congruence|]. apply (IH seg0); [now left | exact Hin].
      * apply IH. now right.
Qed.

Lemma split_segment_In (sep : codeUnit) (s seg : jsstring) (x : codeUnit) :
  In seg (split sep s) -> In x seg -> In x s.
Proof.
  revert seg; induction s as [|c s IH]; simpl; intros seg.
  - intros [<- | []] [].
  - destruct (c =? sep)%N.
    + intros [<- | H]; [intros [] |]. intros Hx. right. eapply IH; eauto.
    + pose proof (split_not_nil sep s) as Hnil.
      destruct (split sep s) as [|seg0 rest]; [contradiction|].
      intros [<- | H].
      * intros [-> | Hin]; [now left|]. right. apply (IH seg0); [now left | exact Hin].
      * intros Hx. right. apply (IH seg); [now right | exact Hx].
Qed.

Lemma pop_In {A} (l : list A) (x : A) : pop l = Some x -> In x l.
Proof.
  intros H. apply pop_Some in H. rewrite H. apply in_or_app. right. now left.
Qed.

Lemma pop_not_nil {A} (l : list A) : l <> [] -> exists x, pop l = Some x.
Proof.
  induction l as [|y l IH]; [contradiction|]. intros _.
  destruct l as [|z l]; [now exists y|].
  destruct IH as (x & Hx); [discriminate|]. exists x. exact Hx.
Qed.

(** ** Lines and records *)

Section LineFacts.

Variable toLowerCase : jsstring -> jsstring.

(** What [parseLine] reads a record from. *)
Lemma parseLine_Some (n : nat) (line : jsstring) (f : MegaFile) :
  parseLine toLowerCase n line = Some f ->
  exists g1 g2,
    matchLine (trim line) = Some (g1, g2) /\
    fullPath f = trim g1 /\ handle f = trim g2 /\
    pop (segments (fullPath f)) = Some (fileName f).
Proof.
  unfold parseLine, segments.
  destruct (includes line (js "<H:")); [|discriminate].
  destruct (matchLine (trim line)) as [[g1 g2]|]; [|discriminate].
  destruct (pop _) as [name|] eqn:E; [|discriminate].
  intros [= <-]. simpl. exists g1, g2. auto.
Qed.

(** The record of a line made of a path, white space and a handle token. *)
Lemma parseLine_of_parts (n : nat) (p ws h name : jsstring) :
  trim p = p -> Forall notTerminator p -> ~ In chLt p ->
  pop (segments p) = Some name ->
  ws <> [] -> Forall whiteSpace ws ->
  h <> [] -> ~ In chGt h ->
  parseLine toLowerCase n (p ++ ws ++ js "<H:" ++ h ++ [chGt])
  = Some {| id := n;
            fileName := name;
            fullPath := p;
            folderPath :=
              if 1 <? length (segments p)
              then chSlash :: join [chSlash] (removelast (segments p))
              else [chSlash];
            extension := extensionOf toLowerCase name;
            type := getFileType (extensionOf toLowerCase name);
            handle := trim h |}.
Proof.
  intros Htrim Hterm Hlt Hname Hws Hspace Hh Hgt.
  assert (Hp : p <> []) by (intros ->; discriminate Hname).
  destruct (trim_fixed_ends p Htrim Hp) as ((x & r & Hx & Ex) & (r' & y & Hy & Ey)).
  set (rest := ws ++ js "<H:" ++ h ++ [chGt]).
  assert (Hline : trim (p ++ rest) = p ++ rest).
  { rewrite Hx. simpl app.
    apply (trim_keeps x chGt _ (x :: r ++ ws ++ js "<H:" ++ h));
      [exact Ex | reflexivity|].
    unfold rest. simpl. f_equal. now rewrite <- !app_assoc. }
  assert (Hmatch : matchLine (p ++ rest) = Some (p, h)).
  { unfold matchLine.
    apply (matchPath_exact p rest h Hp Hterm (matchHandle_complete ws h Hws Hspace Hh Hgt)).
    intros a b Hab Ha Hb.
    destruct (exists_last Hb) as (b0 & y' & ->).
    assert (y' = y).
    { rewrite Hy, app_assoc in Hab. now apply app_inj_tail in Hab as [_ ->]. }
    subst y'. rewrite <- app_assoc. apply matchHandle_inside_path; [exact Ey|].
    intros Hin. apply Hlt. rewrite Hab. apply in_or_app. now right. }
  unfold parseLine.
  replace (includes (p ++ rest) (js "<H:")) with true.
  2:{ unfold rest. rewrite app_assoc. symmetry. apply includes_inside. }
  rewrite Hline, Hmatch, Htrim. fold (segments p). rewrite Hname. reflexivity.
Qed.

(** X3: a line made of a path, white space and a handle token gives a
    record with that path and that handle (trimmed), given that the path has
    no white space around it, no line terminator and no [<], and has a
    segment that is not empty, and that the handle is not empty and has no
    [>].  A handle of white space alone gives a record with the empty handle,
    for which [openInMega] opens nothing. *)
Theorem parseLine_accepts (n : nat) (p ws h : jsstring) :
  trim p = p -> Forall notTerminator p -> ~ In chLt p -> segments p <> [] ->
  ws <> [] -> Forall whiteSpace ws ->
  h <> [] -> ~ In chGt h ->
  exists f,
    parseLine toLowerCase n (p ++ ws ++ js "<H:" ++ h ++ [chGt]) = Some f /\
    id f = n /\ fullPath f = p /\ handle f = trim h /\
    pop (segments p) = Some (fileName f) /\
    (Forall whiteSpace h -> handle f = [] /\ openInMega (handle f) = None).
Proof.
  intros Htrim Hterm Hlt Hseg Hws Hspace Hh Hgt.
  destruct (pop_not_nil (segments p) Hseg) as (name & Hname).
  eexists. split.
  - exact (parseLine_of_parts n p ws h name Htrim Hterm Hlt Hname Hws Hspace Hh Hgt).
  - simpl. repeat (split; [reflexivity || assumption|]).
    intros Hblank. now rewrite (trim_whiteSpace h Hblank).
Qed.

(** X4: in every record of the output the file name is the last segment of
    [fullPath] that is not empty, so it is not empty and holds no slash;
    [fullPath] holds no line terminator; [folderPath] begins with a slash;
    the handle holds neither [>] nor a line feed; and the category is that of
    the extension. *)
Theorem parse_record_fields (text : jsstring) (f : MegaFile) :
  In f (parseNewStructure toLowerCase text) ->
  pop (segments (fullPath f)) = Some (fileName f) /\
  fileName f <> [] /\ ~ In chSlash (fileName f) /\
  Forall notTerminator (fullPath f) /\
  (exists q, folderPath f = chSlash :: q) /\
  ~ In chGt (handle f) /\ ~ In chNewline (handle f) /\
  type f = getFileType (extension f).
Proof.
  intros Hin. apply parse_In in Hin as (n & line & Hline & Hparse).
  pose proof (parseLine_fields _ _ _ _ Hparse) as (_ & Hfolder & _ & Htype).
  apply parseLine_Some in Hparse as (g1 & g2 & Hmatch & Hfull & Hhandle & Hname).
  unfold matchLine in Hmatch.
  apply matchPath_sound in Hmatch as (p' & rest & Hg1 & Hs & _ & Hterm & Hrest).
  apply matchHandle_sound in Hrest as (ws & -> & _ & _ & _ & Hgt).
  simpl in Hg1. subst p'.
  pose proof (pop_In _ _ Hname) as Hseg. unfold segments in Hseg.
  apply filter_In in Hseg as [Hseg Hne].
  repeat split.
  - exact Hname.
  - now destruct (fileName f).
  - now apply (split_segment_no_sep chSlash (fullPath f)).
  - apply List.Forall_forall. intros c Hc. rewrite Hfull in Hc.
    apply trim_In in Hc. rewrite List.Forall_forall in Hterm. now apply Hterm.
  - rewrite Hfolder. destruct (1 <? _); eexists; reflexivity.
  - rewrite Hhandle. intros Hc. apply trim_In in Hc. contradiction.
  - rewrite Hhandle. intros Hc. apply trim_In in Hc.
    apply (split_segment_no_sep chNewline text line Hline).
    apply trim_In. rewrite Hs.
    apply in_or_app; right. apply in_or_app; right.
    apply in_or_app; right. apply in_or_app; now left.
  - exact Htype.
Qed.

Lemma parseLine_around (n : nat) (pre line post : jsstring) :
  Forall whiteSpace pre -> Forall whiteSpace post ->
  parseLine toLowerCase n (pre ++ line ++ post) = parseLine toLowerCase n line.
Proof.
  intros Hpre Hpost. unfold parseLine.
  rewrite (trim_whiteSpace_around pre line post Hpre Hpost).
  rewrite includes_foreign_front, includes_foreign_back;
    [reflexivity | discriminate | now apply whiteSpace_not_marker
     | discriminate | now apply whiteSpace_not_marker].
Qed.

Lemma parseLines_app (l1 l2 : list jsstring) (files : list MegaFile) :
  parseLines toLowerCase (l1 ++ l2) files
  = parseLines toLowerCase l2 (parseLines toLowerCase l1 files).
Proof.
  revert files; induction l1 as [|line l1 IH]; intros files; [reflexivity|].
  simpl. destruct (parseLine toLowerCase (length files) line); apply IH.
Qed.

(** Lines joined by a line end, the line feed after some white space, and
    split again at the line feeds. *)
Lemma parseLines_split_join (suffix : jsstring) :
  Forall whiteSpace suffix -> ~ In chNewline suffix ->
  forall lines files,
  Forall (fun l => ~ In chNewline l) lines -> lines <> [] ->
  parseLines toLowerCase (split chNewline (join (suffix ++ [chNewline]) lines)) files
  = parseLines toLowerCase lines files.
Proof.
  intros Hws Hnl lines. induction lines as [|l lines IH]; intros files Hlines Hne;
    [contradiction|].
  inversion Hlines as [|? ? Hl Hrest]; subst.
  destruct lines as [|l2 rest].
  - simpl join. now rewrite split_no_sep.
  - change (join (suffix ++ [chNewline]) (l :: l2 :: rest))
      with (l ++ (suffix ++ [chNewline]) ++ join (suffix ++ [chNewline]) (l2 :: rest)).
    rewrite <- app_assoc.
    change ([chNewline] ++ join (suffix ++ [chNewline]) (l2 :: rest))
      with (chNewline :: join (suffix ++ [chNewline]) (l2 :: rest)).
    rewrite app_assoc, split_app_sep, split_no_sep.
    2:{ intros Hin. apply in_app_or in Hin as [Hin | Hin]; contradiction. }
    rewrite parseLines_app.
    assert (Hone : parseLines toLowerCase [l ++ suffix] files
                   = parseLines toLowerCase [l] files).
    { cbn [parseLines].
      pose proof (parseLine_around (length files) [] l suffix (List.Forall_nil _) Hws) as H.
      simpl app in H. now rewrite H. }
    rewrite IH by (assumption || discriminate).
    etransitivity; [| symmetry; apply (parseLines_app [l] (l2 :: rest) files)].
    f_equal. exact Hone.
Qed.

(** X5: white space around a line changes nothing; so a text whose lines end
    in a carriage return and a line feed gives the records of the text with
    line feeds alone. *)
Theorem parse_whiteSpace_around_lines :
  (forall n pre line post,
     Forall whiteSpace pre -> Forall whiteSpace post ->
     parseLine toLowerCase n (pre ++ line ++ post) = parseLine toLowerCase n line) /\
  (forall lines,
     Forall (fun l => ~ In chNewline l) lines ->
     parseNewStructure toLowerCase (join [13%N; chNewline] lines)
     = parseNewStructure toLowerCase (join [chNewline] lines)).
Proof.
  split; [exact parseLine_around|].
  intros lines Hlines. unfold parseNewStructure.
  destruct lines as [|l lines]; [reflexivity|].
  rewrite (parseLines_split_join [13%N]); [| repeat constructor | | assumption | discriminate].
  2:{ intros [H | []]. discriminate H. }
  rewrite (parseLines_split_join []); [reflexivity | constructor | | assumption | discriminate].
  intros [].
Qed.

Lemma parseLines_from (lines : list jsstring) :
  forall files,
  parseLines toLowerCase lines files
  = files ++ map (shiftId (length files)) (parseLines toLowerCase lines []).
Proof.
  induction lines as [|line rest IH]; intros files; simpl.
  - now rewrite app_nil_r.
  - rewrite (parseLine_withId toLowerCase 0 (length files)).
    destruct (parseLine toLowerCase 0 line) as [f0|] eqn:E0; simpl.
    + rewrite (IH (files ++ [withId (length files) f0])), (IH [f0]).
      rewrite <- app_assoc. simpl. f_equal.
      apply parseLine_id in E0. rewrite length_app. simpl.
      f_equal.
      * unfold shiftId. rewrite E0, Nat.add_0_r. reflexivity.
      * rewrite map_map. apply map_ext. intros g.
        unfold shiftId, withId. simpl. f_equal. lia.
    + apply IH.
Qed.

(** X6: the records of two texts put one after the other, a line feed
    between them, are the records of the first and then those of the second,
    the ids of these moved up by the number of records of the first. *)
Theorem parse_append (a b : jsstring) :
  parseNewStructure toLowerCase (a ++ chNewline :: b)
  = parseNewStructure toLowerCase a
    ++ map (shiftId (length (parseNewStructure toLowerCase a)))
         (parseNewStructure toLowerCase b).
Proof.
  unfold parseNewStructure.
  rewrite split_app_sep, parseLines_app. apply parseLines_from.
Qed.

End LineFacts.

(** ** Categories, icons and links *)

Lemma arrIncludes_spec (arr : list jsstring) (e : jsstring) :
  reflect (In e arr) (arrIncludes arr e).
Proof. apply iff_reflect. symmetry. apply arrIncludes_In. Qed.

Ltac each_extension H :=
  repeat (destruct H as [<- | H]; [reflexivity || (intros; discriminate) |]);
  destruct H.

(** X7: the category says which list holds the extension: [image] exactly
    for the extensions of [imageExts], and so on for [video], [audio] and
    [document] (no extension is in two lists), and [file] exactly for the
    extensions in none. *)
Theorem getFileType_by_list (e : jsstring) :
  (getFileType e = js "image" <-> In e imageExts) /\
  (getFileType e = js "video" <-> In e videoExts) /\
  (getFileType e = js "audio" <-> In e audioExts) /\
  (getFileType e = js "document" <-> In e docExts) /\
  (getFileType e = js "file" <->
   ~ In e imageExts /\ ~ In e videoExts /\ ~ In e audioExts /\ ~ In e docExts).
Proof.
  repeat split.
  - unfold getFileType.
    destruct (arrIncludes_spec imageExts e); [auto|].
    destruct (arrIncludes videoExts e); [discriminate|].
    destruct (arrIncludes audioExts e); [discriminate|].
    destruct (arrIncludes docExts e); discriminate.
  - intros H. each_extension H.
  - unfold getFileType.
    destruct (arrIncludes imageExts e); [discriminate|].
    destruct (arrIncludes_spec videoExts e); [auto|].
    destruct (arrIncludes audioExts e); [discriminate|].
    destruct (arrIncludes docExts e); discriminate.
  - intros H. each_extension H.
  - unfold getFileType.
    destruct (arrIncludes imageExts e); [discriminate|].
    destruct (arrIncludes videoExts e); [discriminate|].
    destruct (arrIncludes_spec audioExts e); [auto|].
    destruct (arrIncludes docExts e); discriminate.
  - intros H. each_extension H.
  - unfold getFileType.
    destruct (arrIncludes imageExts e); [discriminate|].
    destruct (arrIncludes videoExts e); [discriminate|].
    destruct (arrIncludes audioExts e); [discriminate|].
    destruct (arrIncludes_spec docExts e); [auto | discriminate].
  - intros H. each_extension H.
  - revert H. unfold getFileType.
    destruct (arrIncludes_spec imageExts e); [discriminate | auto].
  - revert H. unfold getFileType.
    destruct (arrIncludes imageExts e); [discriminate|].
    destruct (arrIncludes_spec videoExts e); [discriminate | auto].
  - revert H. unfold getFileType.
    destruct (arrIncludes imageExts e); [discriminate|].
    destruct (arrIncludes videoExts e); [discriminate|].
    destruct (arrIncludes_spec audioExts e); [discriminate | auto].
  - revert H. unfold getFileType.
    destruct (arrIncludes imageExts e); [discriminate|].
    destruct (arrIncludes videoExts e); [discriminate|].
    destruct (arrIncludes audioExts e); [discriminate|].
    destruct (arrIncludes_spec docExts e); [discriminate | auto].
  - intros (Hi & Hv & Ha & Hd). unfold getFileType.
    now rewrite !arrIncludes_not_In.
Qed.

Lemma getFileType_cases (e : jsstring) :
  getFileType e = js "image" \/ getFileType e = js "video" \/
  getFileType e = js "audio" \/ getFileType e = js "document" \/
  getFileType e = js "file".
Proof.
  unfold getFileType.
  destruct (arrIncludes imageExts e); [auto|].
  destruct (arrIncludes videoExts e); [auto|].
  destruct (arrIncludes audioExts e); [auto|].
  destruct (arrIncludes docExts e); auto 6.
Qed.

(** X8: records of two categories never get the same icon, and a type
    outside the four named ones gets the icon of the category [file]. *)
Theorem getFileIcon_separates :
  (forall e1 e2 : jsstring,
     getFileIcon (getFileType e1) = getFileIcon (getFileType e2) ->
     getFileType e1 = getFileType e2) /\
  (forall t : jsstring,
     t <> js "image" -> t <> js "video" -> t <> js "audio" -> t <> js "document" ->
     getFileIcon t = getFileIcon (js "file")).
Proof.
  split.
  - intros e1 e2.
    destruct (getFileType_cases e1) as [-> | [-> | [-> | [-> | ->]]]];
    destruct (getFileType_cases e2) as [-> | [-> | [-> | [-> | ->]]]];
    intros H; try reflexivity; vm_compute in H; discriminate H.
  - intros t Hi Hv Ha Hd. unfold getFileIcon.
    destruct (strEq t (js "image")) eqn:E1; [apply strEq_eq in E1; contradiction|].
    destruct (strEq t (js "video")) eqn:E2; [apply strEq_eq in E2; contradiction|].
    destruct (strEq t (js "audio")) eqn:E3; [apply strEq_eq in E3; contradiction|].
    destruct (strEq t (js "document")) eqn:E4; [apply strEq_eq in E4; contradiction|].
    reflexivity.
Qed.

(** X9: [openInMega] opens nothing exactly for the empty handle; for any
    other handle it opens the address made of the fixed prefix and the
    handle, two handles that give the same address are the same, and the
    address is the one that the listing of the batch writes on the link line
    of the record. *)
Theorem openInMega_address :
  (forall h, openInMega h = None <-> h = []) /\
  (forall h, h <> [] -> openInMega h = Some (megaUrlPrefix ++ h)) /\
  (forall h1 h2 url,
     openInMega h1 = Some url -> openInMega h2 = Some url -> h1 = h2) /\
  (forall f index url,
     openInMega (handle f) = Some url ->
     exportEntry f index
     = numberToString (index + 1) ++ js ". " ++ fileName f ++ [chNewline]
         ++ js "   Path: " ++ fullPath f ++ [chNewline]
         ++ js "   Link: " ++ url ++ [chNewline]).
Proof.
  unfold openInMega. repeat split.
  - destruct h; [reflexivity | discriminate].
  - now intros ->.
  - intros h Hh. destruct h; [contradiction | reflexivity].
  - intros h1 h2 url H1 H2.
    destruct h1; [discriminate|]. destruct h2; [discriminate|].
    cbn [isEmpty] in H1, H2. rewrite <- H2 in H1.
    assert (H : megaUrlPrefix ++ c :: h1 = megaUrlPrefix ++ c0 :: h2) by congruence.
    now apply app_inv_head in H.
  - intros f index url H. destruct (handle f) eqn:Eh; [discriminate|].
    cbn [isEmpty] in H. injection H as <-.
    unfold exportEntry. rewrite Eh. repeat rewrite <- app_assoc. reflexivity.
Qed.

(** ** The states of the component *)

Lemma pickRandomFile_database (i : nat) (s : State) :
  database (snd (pickRandomFile i s)) = database s.
Proof.
  unfold pickRandomFile. destruct (database s) eqn:E; [exact E|].
  destruct (nth_error _ i); simpl; congruence.
Qed.

Lemma generateBatch_database (count : nat) (rnd : nat -> nat) (fuel : nat) (s s' : State) :
  generateBatch count rnd fuel s = Some s' -> database s' = database s.
Proof.
  unfold generateBatch. destruct (database s) eqn:E.
  - now intros [= <-].
  - destruct (drawLoop _ _ _ _ _ _ _); [|discriminate]. now intros [= <-].
Qed.

Lemma id_determines (l : list MegaFile) (a b : MegaFile) :
  List.NoDup (map id l) -> In a l -> In b l -> id a = id b -> a = b.
Proof.
  induction l as [|x l IH]; simpl; intros Hnd Ha Hb Hid; [contradiction|].
  inversion Hnd as [|? ? Hx Hl]; subst.
  destruct Ha as [-> | Ha], Hb as [-> | Hb]; auto.
  - exfalso. apply Hx. rewrite Hid. now apply in_map.
  - exfalso. apply Hx. rewrite <- Hid. now apply in_map.
Qed.

Lemma drawLoop_extends (fuel : nat) (db : list MegaFile) (limit : nat) (rnd : nat -> nat) :
  forall k batch used out,
  drawLoop fuel db limit rnd k batch used = Some out ->
  exists rest, out = batch ++ rest.
Proof.
  induction fuel as [|fuel IH]; intros k batch used out; simpl.
  - destruct (length batch <? limit); [discriminate|].
    intros [= <-]. exists []. now rewrite app_nil_r.
  - destruct (length batch <? limit).
    + destruct (nth_error db (rnd k)) as [f|]; [|discriminate].
      destruct (decide (id f ∈ used)); intros Hrun; apply IH in Hrun as (rest & ->).
      * now exists rest.
      * exists (f :: rest). now rewrite <- app_assoc.
    + intros [= <-]. exists []. now rewrite app_nil_r.
Qed.

Lemma drawLoop_fuel_bound (fuel : nat) (db : list MegaFile) (limit : nat) (rnd : nat -> nat) :
  forall k batch used out,
  drawLoop fuel db limit rnd k batch used = Some out ->
  limit <= length batch + fuel.
Proof.
  induction fuel as [|fuel IH]; intros k batch used out; simpl.
  - destruct (Nat.ltb_spec (length batch) limit); [discriminate | lia].
  - destruct (Nat.ltb_spec (length batch) limit); [|lia].
    destruct (nth_error db (rnd k)) as [f|]; [|discriminate].
    destruct (decide (id f ∈ used)); intros Hrun; apply IH in Hrun;
      rewrite ?length_app in Hrun; simpl in Hrun; lia.
Qed.

Section StateFacts.

Variable toLowerCase : jsstring -> jsstring.

Lemma reachable_parsed (s : State) :
  reachable toLowerCase s ->
  exists text, database s = parseNewStructure toLowerCase text.
Proof.
  induction 1 as [|s s' _ IH Hstep].
  - exists []. reflexivity.
  - destruct Hstep as [s text | s i | s count rnd fuel s' Hgen | s file Hfile | s | s].
    + now exists text.
    + now rewrite pickRandomFile_database.
    + now rewrite (generateBatch_database _ _ _ _ _ Hgen).
    + exact IH.
    + exact IH.
    + exists []. reflexivity.
Qed.

Lemma reachable_selection (s : State) :
  reachable toLowerCase s ->
  forall f, currentFile s = Some f -> In f (currentBatch s).
Proof.
  induction 1 as [|s s' Hreach IH Hstep]; [discriminate|].
  pose proof (reachable_stateInv toLowerCase s Hreach) as (Hdb & Hin & Hnd & Hsel).
  destruct Hstep as [s text | s i | s count rnd fuel s' Hgen | s file Hfile | s | s];
    try discriminate.
  - destruct (nth_error (database s) i) as [r|] eqn:Er.
    + rewrite (pickRandomFile_draw _ _ _ Er). simpl. intros f [= <-].
      destruct (find _ (currentBatch s)) as [g|] eqn:Ef; [|now left].
      apply find_some in Ef as [Hg Hid]. apply Nat.eqb_eq in Hid.
      assert (g = r); [|now subst].
      apply (id_determines (database s)); auto. eapply nth_error_In; eauto.
    + unfold pickRandomFile. rewrite Er. destruct (database s); exact IH.
  - destruct (database s) as [|f0 db] eqn:Edb.
    + rewrite (generateBatch_empty _ _ _ _ Edb) in Hgen. injection Hgen as <-. exact IH.
    + apply generateBatch_Some in Hgen as (batch & _ & ->); [|congruence].
      simpl. intros f. apply head_In.
  - simpl. now intros f [= <-].
Qed.

(** X10: in every state of the component the record set is the output of the
    parser on some text, so each record has its place as id; the batch holds
    records of the record set, no id twice, so it is no longer than the
    record set; and the selection, when there is one, is an entry of the
    batch. *)
Theorem state_wellformed (s : State) :
  reachable toLowerCase s ->
  (exists text, database s = parseNewStructure toLowerCase text) /\
  (forall i r, nth_error (database s) i = Some r -> id r = i) /\
  incl (currentBatch s) (database s) /\
  List.NoDup (map id (currentBatch s)) /\
  length (currentBatch s) <= length (database s) /\
  (forall f, currentFile s = Some f -> In f (currentBatch s)).
Proof.
  intros Hreach.
  pose proof (reachable_stateInv toLowerCase s Hreach) as (Hdb & Hin & Hnd & _).
  destruct (reachable_parsed s Hreach) as (text & Htext).
  split; [now exists text|]. split; [|split; [exact Hin|split; [exact Hnd|split]]].
  - intros i r Hr.
    assert (Hids : map id (database s) = seq 0 (length (database s))).
    { rewrite Htext. apply parseLines_ids. reflexivity. }
    pose proof (map_nth_error id _ _ Hr) as Hm. rewrite Hids in Hm.
    assert (Hi : i < length (database s)) by (apply nth_error_Some; congruence).
    rewrite (nth_error_nth' _ 0) in Hm by (now rewrite length_seq).
    rewrite seq_nth in Hm by assumption. now injection Hm as <-.
  - rewrite <- (length_map id (currentBatch s)), <- (length_map id (database s)).
    apply List.NoDup_incl_length; [exact Hnd | now apply incl_map].
  - now apply reachable_selection.
Qed.

End StateFacts.

(** X11: a pick leaves the record set, keeps the entries of the batch in
    their order and puts at most one record before them; once every record
    of the record set has its id in the batch, as after a batch draw with
    [count] at least the number of records, picks leave the batch as it is. *)
Theorem pickRandomFile_keeps_batch (s : State) (i : nat) :
  let s' := snd (pickRandomFile i s) in
  database s' = database s /\
  (exists front, currentBatch s' = front ++ currentBatch s /\ length front <= 1) /\
  ((forall r, In r (database s) -> exists g, In g (currentBatch s) /\ id g = id r) ->
   currentBatch s' = currentBatch s) /\
  (forall count rnd fuel s0,
     generateBatch count rnd fuel s0 = Some s -> database s0 <> [] ->
     length (database s0) <= count ->
     currentBatch s' = currentBatch s).
Proof.
  cbv zeta.
  assert (Hfull : (forall r, In r (database s) ->
                     exists g, In g (currentBatch s) /\ id g = id r) ->
                  currentBatch (snd (pickRandomFile i s)) = currentBatch s).
  { intros Hall. destruct (nth_error (database s) i) as [r|] eqn:Er.
    - rewrite (pickRandomFile_draw _ _ _ Er). simpl.
      destruct (find_id_Some r (currentBatch s)) as (g & ->); [|reflexivity].
      apply Hall. eapply nth_error_In; eauto.
    - unfold pickRandomFile. rewrite Er. now destruct (database s). }
  split; [apply pickRandomFile_database|]. split; [|split; [exact Hfull|]].
  - destruct (nth_error (database s) i) as [r|] eqn:Er.
    + rewrite (pickRandomFile_draw _ _ _ Er). simpl.
      destruct (find _ (currentBatch s)).
      * exists []. simpl. auto.
      * exists [r]. simpl. auto.
    + exists []. unfold pickRandomFile. rewrite Er.
      destruct (database s); simpl; auto.
  - intros count rnd fuel s0 Hgen Hne Hcount. apply Hfull.
    apply generateBatch_Some in Hgen as (batch & Hloop & ->); [|assumption].
    apply drawLoop_sound in Hloop as (Hlen & Hnd & Hin);
      [|apply loopInv_start | simpl; lia].
    simpl. intros r Hr.
    assert (Hids : incl (map id (database s0)) (map id batch)).
    { apply List.NoDup_length_incl; [assumption | | now apply incl_map].
      rewrite !length_map, Hlen. lia. }
    specialize (Hids (id r) (in_map id _ _ Hr)).
    apply in_map_iff in Hids as (g & Hid & Hg). now exists g.
Qed.

(** X12: after a batch draw on a record set that is not empty the record set
    is as before; with [count = 0] the batch is empty and the selection
    null; with a larger [count] the selection is the first entry of the
    batch, which is the record of the first draw. *)
Theorem generateBatch_selection (s s' : State) (count : nat) (rnd : nat -> nat) (fuel : nat) :
  database s <> [] ->
  generateBatch count rnd fuel s = Some s' ->
  database s' = database s /\
  currentFile s' = head (currentBatch s') /\
  (count = 0 -> currentBatch s' = [] /\ currentFile s' = None) /\
  (0 < count -> currentFile s' = nth_error (database s) (rnd 0) /\ currentFile s' <> None).
Proof.
  intros Hne Hgen.
  split; [now apply generateBatch_database in Hgen|].
  apply generateBatch_Some in Hgen as (batch & Hloop & ->); [|assumption].
  simpl. split; [reflexivity|]. split.
  - intros ->. simpl in Hloop. destruct fuel; simpl in Hloop; injection Hloop as <-; auto.
  - intros Hcount.
    assert (Hlimit : 0 < Nat.min count (length (database s))).
    { destruct (database s); [contradiction | simpl; lia]. }
    destruct fuel as [|fuel]; simpl in Hloop.
    + destruct (Nat.min count (length (database s))); [lia | discriminate].
    + destruct (Nat.min count (length (database s))) as [|m] eqn:Em; [lia|].
      simpl in Hloop.
      destruct (nth_error (database s) (rnd 0)) as [r|]; [|discriminate].
      destruct (decide (id r ∈ (∅ : gset nat))) as [Hin|_].
      { now apply not_elem_of_empty in Hin. }
      apply drawLoop_extends in Hloop as (rest & ->). simpl.
      split; [reflexivity | discriminate].
Qed.

(** ** The number of draws *)

Lemma nth_error_id_inj (db : list MegaFile) (a b : nat) (x y : MegaFile) :
  List.NoDup (map id db) ->
  nth_error db a = Some x -> nth_error db b = Some y -> id x = id y -> a = b.
Proof.
  intros Hnd Ha Hb Hid.
  apply (proj1 (List.NoDup_nth_error (map id db)) Hnd).
  - rewrite length_map. apply nth_error_Some. congruence.
  - rewrite (map_nth_error id _ _ Ha), (map_nth_error id _ _ Hb). now rewrite Hid.
Qed.

(** The loop on draws that do not come twice: each draw is taken. *)
Lemma drawLoop_distinct_draws (db : list MegaFile) (m : nat) (rnd : nat -> nat) :
  List.NoDup (map id db) ->
  (forall i, i < m -> rnd i < length db) ->
  (forall i i', i < m -> i' < m -> rnd i = rnd i' -> i = i') ->
  forall j k batch used,
  k + j = m ->
  (forall x, x ∈ used <-> exists i r, i < k /\ nth_error db (rnd i) = Some r /\ id r = x) ->
  map Some batch = map (fun i => nth_error db (rnd i)) (seq 0 k) ->
  exists out,
    drawLoop j db m rnd k batch used = Some out /\
    map Some out = map (fun i => nth_error db (rnd i)) (seq 0 m).
Proof.
  intros Hnd Hrange Hinj. induction j as [|j IH]; intros k batch used Hk Hused Hbatch.
  - assert (Hlen : length batch = k).
    { rewrite <- (length_map Some), Hbatch, length_map, length_seq. reflexivity. }
    exists batch. simpl. replace k with m in * by lia.
    rewrite Hlen, Nat.ltb_irrefl. auto.
  - assert (Hlen : length batch = k).
    { rewrite <- (length_map Some), Hbatch, length_map, length_seq. reflexivity. }
    assert (Hkm : k < m) by lia.
    destruct (nth_error db (rnd k)) as [r|] eqn:Er.
    2:{ apply nth_error_None in Er. specialize (Hrange k Hkm). lia. }
    assert (Hfresh : id r ∉ used).
    { intros Hin. apply Hused in Hin as (i & r' & Hi & Hr' & Hid).
      assert (rnd i = rnd k) by (eapply nth_error_id_inj; eauto).
      assert (i = k) by (apply Hinj; lia || assumption). lia. }
    destruct (IH (S k) (batch ++ [r]) ({[ id r ]} ∪ used)) as (out & Hout & Hmap).
    + lia.
    + intros x. rewrite elem_of_union, elem_of_singleton, Hused. split.
      * intros [-> | (i & r' & Hi & Hr' & Hid)].
        -- exists k, r. auto.
        -- exists i, r'. split; [lia | auto].
      * intros (i & r' & Hi & Hr' & Hid).
        destruct (Nat.eq_dec i k) as [-> | Hne].
        -- left. congruence.
        -- right. exists i, r'. split; [lia | auto].
    + rewrite map_app, Hbatch, seq_S, map_app. simpl. now rewrite Er.
    + exists out. split; [|exact Hmap].
      simpl. rewrite Hlen. apply Nat.ltb_lt in Hkm. rewrite Hkm, Er.
      destruct (decide (id r ∈ used)); [contradiction | exact Hout].
Qed.

(** X13: a batch draw on a record set that is not empty takes at least
    [min count n] draws; it takes just that many, and the batch is the
    records drawn, in the order of the draws, when these first draws are
    indices of the record set no two of which are the same (the ids of the
    record set being distinct). *)
Theorem generateBatch_draw_count (s : State) (count : nat) (rnd : nat -> nat) :
  database s <> [] ->
  let m := Nat.min count (length (database s)) in
  (forall fuel s', generateBatch count rnd fuel s = Some s' -> m <= fuel) /\
  (List.NoDup (map id (database s)) ->
   (forall i, i < m -> rnd i < length (database s)) ->
   (forall i i', i < m -> i' < m -> rnd i = rnd i' -> i = i') ->
   exists s',
     generateBatch count rnd m s = Some s' /\
     map Some (currentBatch s') = map (fun i => nth_error (database s) (rnd i)) (seq 0 m)).
Proof.
  intros Hne m. split.
  - intros fuel s' Hgen.
    apply generateBatch_Some in Hgen as (batch & Hloop & _); [|assumption].
    apply drawLoop_fuel_bound in Hloop. simpl in Hloop. exact Hloop.
  - intros Hnd Hrange Hinj.
    destruct (drawLoop_distinct_draws (database s) m rnd Hnd Hrange Hinj m 0 [] ∅)
      as (out & Hout & Hmap).
    + reflexivity.
    + intros x. split.
      * intros Hin. now apply not_elem_of_empty in Hin.
      * intros (i & r & Hi & _). lia.
    + reflexivity.
    + unfold generateBatch. destruct (database s) as [|f0 db] eqn:Edb; [contradiction|].
      fold m. rewrite Hout. eexists. split; [reflexivity | exact Hmap].
Qed.

(** ** The count of folders *)

Lemma folders_cons (f : MegaFile) (parsedFiles : list MegaFile) :
  (In (folderPath f) (map folderPath parsedFiles) ->
   folders (f :: parsedFiles) = folders parsedFiles) /\
  (~ In (folderPath f) (map folderPath parsedFiles) ->
   folders (f :: parsedFiles) = S (folders parsedFiles)).
Proof.
  unfold folders. simpl map. rewrite list_to_set_cons. split; intros H.
  - f_equal. apply leibniz_equiv. apply subseteq_union_1.
    apply singleton_subseteq_l, elem_of_list_to_set, list_elem_of_In, H.
  - rewrite size_union, size_singleton; [reflexivity|].
    apply disjoint_singleton_l. intros Hin.
    apply elem_of_list_to_set, list_elem_of_In in Hin. contradiction.
Qed.

(** X14: the count of folders that the upload shows is the number of
    distinct [folderPath]s: a record of a new folder adds one to it, a record
    of a folder already there adds nothing; so it is at most the number of
    records, and at least one when there is a record. *)
Theorem folders_distinct (parsedFiles : list MegaFile) :
  folders parsedFiles <= length parsedFiles /\
  (parsedFiles <> [] -> 1 <= folders parsedFiles) /\
  (forall f, In (folderPath f) (map folderPath parsedFiles) ->
             folders (f :: parsedFiles) = folders parsedFiles) /\
  (forall f, ~ In (folderPath f) (map folderPath parsedFiles) ->
             folders (f :: parsedFiles) = S (folders parsedFiles)).
Proof.
  split; [|split; [|split]].
  - induction parsedFiles as [|f l IH]; [reflexivity|].
    destruct (in_dec (List.list_eq_dec N.eq_dec) (folderPath f) (map folderPath l)) as [Hin|Hout].
    + rewrite (proj1 (folders_cons f l) Hin). simpl. lia.
    + rewrite (proj2 (folders_cons f l) Hout). simpl. lia.
  - induction parsedFiles as [|f l IH]; [contradiction|]. intros _.
    destruct (in_dec (List.list_eq_dec N.eq_dec) (folderPath f) (map folderPath l)) as [Hin|Hout].
    + rewrite (proj1 (folders_cons f l) Hin). apply IH.
      intros ->. destruct Hin.
    + rewrite (proj2 (folders_cons f l) Hout). lia.
  - intros f. apply folders_cons.
  - intros f. apply folders_cons.
Qed.

(** ** The listing of the batch *)

Lemma notIn_check (c : codeUnit) (l : jsstring) :
  existsb (N.eqb c) l = false -> ~ In c l.
Proof.
  intros H Hin. assert (existsb (N.eqb c) l = true); [|congruence].
  apply existsb_exists. exists c. split; [assumption | apply N.eqb_refl].
Qed.

Lemma notIn_app (c : codeUnit) (a b : jsstring) :
  ~ In c a -> ~ In c b -> ~ In c (a ++ b).
Proof. intros Ha Hb H. apply in_app_or in H as [H | H]; contradiction. Qed.

Lemma digits_no_newline (d : Decimal.uint) :
  ~ In chNewline (js (NilEmpty.string_of_uint d)).
Proof.
  induction d; simpl; intros H; try (destruct H as [H | H]; [discriminate H | auto]).
  exact H.
Qed.

Lemma numberToString_no_newline (n : nat) : ~ In chNewline (numberToString n).
Proof. apply digits_no_newline. Qed.

Lemma split_line (sep : codeUnit) (a b : jsstring) :
  ~ In sep a -> split sep (a ++ sep :: b) = a :: split sep b.
Proof. intros Ha. now rewrite split_app_sep, split_no_sep. Qed.

Lemma exportEntry_lines (f : MegaFile) (k : nat) (rest : jsstring) :
  oneLineFields f ->
  split chNewline (exportEntry f k ++ rest)
  = match entryLines f k with
    | [l1; l2; l3; _] => l1 :: l2 :: l3 :: split chNewline rest
    | _ => []
    end.
Proof.
  intros (Hname & Hpath & Hhandle). unfold entryLines.
  set (l1 := numberToString (k + 1) ++ js ". " ++ fileName f).
  set (l2 := js "   Path: " ++ fullPath f).
  set (l3 := js "   Link: " ++ megaUrlPrefix ++ handle f).
  assert (E : exportEntry f k ++ rest
              = l1 ++ chNewline :: l2 ++ chNewline :: l3 ++ chNewline :: rest).
  { unfold exportEntry, l1, l2, l3. repeat rewrite <- app_assoc. reflexivity. }
  rewrite E, !split_line; [reflexivity | | |].
  - unfold l3. repeat apply notIn_app; try assumption; apply notIn_check; reflexivity.
  - unfold l2. apply notIn_app; [apply notIn_check; reflexivity | assumption].
  - unfold l1. repeat apply notIn_app; auto using numberToString_no_newline.
    apply notIn_check. reflexivity.
Qed.

Lemma export_entries_lines (batch : list MegaFile) :
  Forall oneLineFields batch -> batch <> [] ->
  forall k,
  split chNewline (join [chNewline] (mapIndexed exportEntry k batch))
  = concat (mapIndexed entryLines k batch).
Proof.
  induction 1 as [|f batch Hf Hbatch IH]; [contradiction|]. intros _ k.
  destruct batch as [|g rest].
  - simpl. rewrite <- (app_nil_r (exportEntry f k)), (exportEntry_lines f k [] Hf).
    reflexivity.
  - change (join [chNewline] (mapIndexed exportEntry k (f :: g :: rest)))
      with (exportEntry f k ++ chNewline :: join [chNewline] (mapIndexed exportEntry (S k) (g :: rest))).
    rewrite (exportEntry_lines f k _ Hf).
    change (mapIndexed entryLines k (f :: g :: rest))
      with (entryLines f k :: mapIndexed entryLines (S k) (g :: rest)).
    cbn [concat]. rewrite <- IH by discriminate.
    unfold entryLines at 1 2. cbn [split app]. rewrite N.eqb_refl. reflexivity.
Qed.

Lemma exportText_lines (timestamp : jsstring) (batch : list MegaFile) :
  ~ In chNewline timestamp -> Forall oneLineFields batch -> batch <> [] ->
  split chNewline (exportText timestamp batch)
  = (js "Random Files - " ++ timestamp) :: [] :: concat (mapIndexed entryLines 0 batch).
Proof.
  intros Hts Hbatch Hne. unfold exportText.
  rewrite app_assoc.
  change ([chNewline; chNewline] ++ ?x) with (chNewline :: chNewline :: x).
  rewrite split_line.
  2:{ apply notIn_app; [apply notIn_check; reflexivity | assumption]. }
  f_equal. cbn [split]. rewrite N.eqb_refl. f_equal.
  now apply export_entries_lines.
Qed.

Lemma length_concat_entries (batch : list MegaFile) (k : nat) :
  length (concat (mapIndexed entryLines k batch)) = 4 * length batch.
Proof.
  revert k; induction batch as [|f batch IH]; intros k; [reflexivity|].
  cbn [mapIndexed concat length]. rewrite length_app, IH. simpl. lia.
Qed.

Section ExportFacts.

Variable toLowerCase : jsstring -> jsstring.

Lemma parse_oneLineFields (text : jsstring) (f : MegaFile) :
  In f (parseNewStructure toLowerCase text) -> oneLineFields f.
Proof.
  intros Hin. apply parse_In in Hin as (n & line & Hline & Hparse).
  apply parseLine_Some in Hparse as (g1 & g2 & Hmatch & Hfull & Hhandle & Hname).
  unfold matchLine in Hmatch.
  apply matchPath_sound in Hmatch as (p' & rest & Hg1 & Hs & _ & Hterm & Hrest).
  apply matchHandle_sound in Hrest as (ws & -> & _).
  simpl in Hg1. subst p'.
  assert (Hpath : ~ In chNewline (fullPath f)).
  { rewrite Hfull. intros Hc. apply trim_In in Hc.
    rewrite List.Forall_forall in Hterm. apply Hterm in Hc. discriminate Hc. }
  repeat split.
  - intros Hc. apply Hpath.
    apply pop_In in Hname. unfold segments in Hname. apply filter_In in Hname as [Hseg _].
    eapply split_segment_In; eauto.
  - exact Hpath.
  - rewrite Hhandle. intros Hc. apply trim_In in Hc.
    apply (split_segment_no_sep chNewline text line Hline).
    apply trim_In. rewrite Hs.
    apply in_or_app; right. apply in_or_app; right.
    apply in_or_app; right. apply in_or_app; now left.
Qed.

(** X15: in every state of the component, with a time stamp of one line:
    [copyAllFiles] and [downloadFileList] do nothing exactly when the batch is
    empty; otherwise both give the same text, whose lines are the title, an
    empty line, and for each entry of the batch, in its order and numbered
    from 1, four lines: number and name, path, link, and an empty line; the
    file offered for download is named after the time stamp. *)
Theorem export_lines (s : State) (timestamp : jsstring) :
  reachable toLowerCase s -> ~ In chNewline timestamp ->
  (copyAllFiles timestamp s = None <-> currentBatch s = []) /\
  (downloadFileList timestamp s = None <-> currentBatch s = []) /\
  (forall text, copyAllFiles timestamp s = Some text ->
     downloadFileList timestamp s
       = Some (js "random-files-" ++ timestamp ++ js ".txt", text) /\
     split chNewline text
       = (js "Random Files - " ++ timestamp) :: []
           :: concat (mapIndexed entryLines 0 (currentBatch s)) /\
     length (split chNewline text) = 2 + 4 * length (currentBatch s)).
Proof.
  intros Hreach Hts.
  assert (Hfields : Forall oneLineFields (currentBatch s)).
  { apply List.Forall_forall. intros f Hf.
    destruct (reachable_parsed toLowerCase s Hreach) as (text & Htext).
    apply (parse_oneLineFields text). rewrite <- Htext.
    now apply (reachable_stateInv toLowerCase s Hreach). }
  unfold copyAllFiles, downloadFileList.
  destruct (currentBatch s) as [|f batch] eqn:Eb.
  - repeat split; auto; discriminate.
  - split; [split; discriminate|]. split; [split; discriminate|].
    intros text [= <-]. split; [reflexivity|].
    assert (Hlines := exportText_lines timestamp (f :: batch) Hts Hfields ltac:(discriminate)).
    split; [exact Hlines|].
    rewrite Hlines. cbn [length]. now rewrite length_concat_entries.
Qed.

End ExportFacts.

(** ** Further examples *)

Ltac all_of := repeat constructor.
Ltac none_of := apply notIn_check; reflexivity.

Lemma matchLine_decomposes_witness :
  matchLine oneFileText = Some (js "/a.txt", js "h0") /\
  exists ws,
    oneFileText = js "/a.txt" ++ ws ++ js "<H:" ++ js "h0" ++ [chGt] /\
    js "/a.txt" <> [] /\ Forall notTerminator (js "/a.txt") /\
    ws <> [] /\ Forall whiteSpace ws /\
    js "h0" <> [] /\ ~ In chGt (js "h0").
Proof.
  assert (H : matchLine oneFileText = Some (js "/a.txt", js "h0")) by reflexivity.
  split; [exact H|].
  exact (matchLine_decomposes oneFileText (js "/a.txt") (js "h0") H).
Defined.

Lemma matchLine_shortest_path_witness :
  exists p h q,
    matchLine (js "a <H:b" ++ js " " ++ js "<H:" ++ js "c" ++ [chGt]) = Some (p, h) /\
    js "a <H:b" = p ++ q /\ p <> [].
Proof.
  apply (matchLine_shortest_path (js "a <H:b") (js " ") (js "c")).
  - discriminate.
  - all_of.
  - discriminate.
  - all_of.
  - discriminate.
  - none_of.
Defined.

Lemma parseLine_accepts_witness :
  exists f,
    parseLine asciiToLowerCase 7
      (js "/docs/report.pdf" ++ js "  " ++ js "<H:" ++ js "HANDLE1" ++ [chGt]) = Some f /\
    id f = 7 /\ fullPath f = js "/docs/report.pdf" /\ handle f = trim (js "HANDLE1") /\
    pop (segments (js "/docs/report.pdf")) = Some (fileName f) /\
    (Forall whiteSpace (js "HANDLE1") -> handle f = [] /\ openInMega (handle f) = None).
Proof.
  apply (parseLine_accepts asciiToLowerCase 7 (js "/docs/report.pdf") (js "  ") (js "HANDLE1")).
  - reflexivity.
  - all_of.
  - none_of.
  - vm_compute. discriminate.
  - discriminate.
  - all_of.
  - discriminate.
  - none_of.
Defined.

Lemma parse_record_fields_witness :
  In file0 (parseNewStructure asciiToLowerCase oneFileText) /\
  pop (segments (fullPath file0)) = Some (fileName file0) /\
  fileName file0 <> [] /\ ~ In chSlash (fileName file0).
Proof.
  assert (Hin : In file0 (parseNewStructure asciiToLowerCase oneFileText))
    by (left; reflexivity).
  split; [exact Hin|].
  destruct (parse_record_fields asciiToLowerCase oneFileText file0 Hin)
    as (H1 & H2 & H3 & _).
  auto.
Defined.

Lemma parse_whiteSpace_around_lines_witness :
  Forall (fun l => ~ In chNewline l) [js "/a.txt <H:h0>"; js "/b.png <H:h1>"] /\
  parseNewStructure asciiToLowerCase
    (join [13%N; chNewline] [js "/a.txt <H:h0>"; js "/b.png <H:h1>"])
  = parseNewStructure asciiToLowerCase
      (join [chNewline] [js "/a.txt <H:h0>"; js "/b.png <H:h1>"]).
Proof.
  assert (H : Forall (fun l => ~ In chNewline l) [js "/a.txt <H:h0>"; js "/b.png <H:h1>"]).
  { repeat (constructor; [none_of|]). constructor. }
  split; [exact H|].
  exact (proj2 (parse_whiteSpace_around_lines asciiToLowerCase) _ H).
Defined.

Lemma getFileType_by_list_witness :
  In (js "png") imageExts /\ getFileType (js "png") = js "image".
Proof.
  assert (H : In (js "png") imageExts) by (right; right; left; reflexivity).
  split; [exact H|].
  exact (proj2 (proj1 (getFileType_by_list (js "png"))) H).
Defined.

Lemma getFileIcon_separates_witness :
  js "folder" <> js "image" /\
  getFileIcon (js "folder") = getFileIcon (js "file").
Proof.
  split; [discriminate|].
  apply (proj2 getFileIcon_separates); discriminate.
Defined.

Lemma openInMega_address_witness :
  js "h0" <> [] /\ openInMega (js "h0") = Some (megaUrlPrefix ++ js "h0").
Proof.
  split; [discriminate|].
  apply (proj1 (proj2 openInMega_address)). discriminate.
Defined.

Lemma state_wellformed_witness :
  let s := snd (pickRandomFile 1 twoFiles) in
  reachable asciiToLowerCase s /\
  length (currentBatch s) <= length (database s) /\
  (forall f, currentFile s = Some f -> In f (currentBatch s)).
Proof.
  intros s.
  assert (Hr : reachable asciiToLowerCase s).
  { eapply reach_step; [apply twoFiles_reachable | apply step_pick]. }
  split; [exact Hr|].
  destruct (state_wellformed asciiToLowerCase s Hr) as (_ & _ & _ & _ & Hlen & Hsel).
  split; assumption.
Defined.

Lemma pickRandomFile_keeps_batch_witness :
  let s := {| database := [file0; file1]; currentBatch := [file1; file0];
              currentFile := Some file1 |} in
  (forall r, In r (database s) -> exists g, In g (currentBatch s) /\ id g = id r) /\
  currentBatch (snd (pickRandomFile 0 s)) = currentBatch s.
Proof.
  intros s.
  assert (H : forall r, In r (database s) -> exists g, In g (currentBatch s) /\ id g = id r).
  { intros r [<- | [<- | []]].
    - exists file0. split; [right; left; reflexivity | reflexivity].
    - exists file1. split; [left; reflexivity | reflexivity]. }
  split; [exact H|].
  exact (proj1 (proj2 (proj2 (pickRandomFile_keeps_batch s 0))) H).
Defined.

Lemma generateBatch_selection_witness :
  database twoFiles <> [] /\
  generateBatch 1 (fun _ => 1) 1 twoFiles
    = Some {| database := [file0; file1]; currentBatch := [file1];
              currentFile := Some file1 |} /\
  currentFile {| database := [file0; file1]; currentBatch := [file1];
                 currentFile := Some file1 |}
    = nth_error (database twoFiles) 1.
Proof.
  assert (Hne : database twoFiles <> []) by discriminate.
  assert (Hgen : generateBatch 1 (fun _ => 1) 1 twoFiles
                 = Some {| database := [file0; file1]; currentBatch := [file1];
                           currentFile := Some file1 |}) by reflexivity.
  split; [exact Hne|]. split; [exact Hgen|].
  exact (proj1 (proj2 (proj2 (proj2
           (generateBatch_selection twoFiles _ 1 (fun _ => 1) 1 Hne Hgen))) Nat.lt_0_1)).
Defined.

Lemma generateBatch_draw_count_witness :
  database twoFiles <> [] /\
  exists s',
    generateBatch 5 (fun k => k) 2 twoFiles = Some s' /\
    map Some (currentBatch s') = [Some file0; Some file1].
Proof.
  assert (Hne : database twoFiles <> []) by discriminate.
  split; [exact Hne|].
  apply (proj2 (generateBatch_draw_count twoFiles 5 (fun k => k) Hne)).
  - simpl. repeat constructor; simpl; intuition discriminate.
  - simpl. intros i Hi. exact Hi.
  - intros i i' _ _ H. exact H.
Defined.

Lemma folders_distinct_witness :
  database twoFiles <> [] /\ 1 <= folders (database twoFiles) /\
  In (folderPath file1) (map folderPath [file0]) /\
  folders [file1; file0] = folders [file0].
Proof.
  assert (Hne : database twoFiles <> []) by discriminate.
  assert (Hin : In (folderPath file1) (map folderPath [file0])) by (left; reflexivity).
  split; [exact Hne|].
  split; [exact (proj1 (proj2 (folders_distinct (database twoFiles))) Hne)|].
  split; [exact Hin|].
  exact (proj1 (proj2 (proj2 (folders_distinct [file0]))) file1 Hin).
Defined.

Lemma export_lines_witness :
  let s := snd (pickRandomFile 0 oneFile) in
  reachable asciiToLowerCase s /\ ~ In chNewline (js "2026-01-31") /\
  forall text, copyAllFiles (js "2026-01-31") s = Some text ->
    split chNewline text
    = [js "Random Files - 2026-01-31"; [];
       js "1. a.txt"; js "   Path: /a.txt"; js "   Link: https://mega.nz/file/h0"; []].
Proof.
  intros s.
  assert (Hr : reachable asciiToLowerCase s).
  { eapply reach_step; [apply oneFile_reachable | apply step_pick]. }
  assert (Hts : ~ In chNewline (js "2026-01-31")) by none_of.
  split; [exact Hr|]. split; [exact Hts|].
  intros text Htext.
  exact (proj1 (proj2 (proj2 (proj2 (export_lines asciiToLowerCase s (js "2026-01-31") Hr Hts))
                         text Htext))).
Defined.

(** ** Reading a listing again *)

Lemma split_join (sep : codeUnit) (lines : list jsstring) :
  Forall (fun l => ~ In sep l) lines -> lines <> [] ->
  split sep (join [sep] lines) = lines.
Proof.
  induction 1 as [|l lines Hl Hlines IH]; [contradiction|]. intros _.
  destruct lines as [|l2 rest].
  - simpl. now apply split_no_sep.
  - change (join [sep] (l :: l2 :: rest)) with (l ++ sep :: join [sep] (l2 :: rest)).
    rewrite split_line by assumption. rewrite IH by discriminate. reflexivity.
Qed.

Lemma mapIndexed_withId (fs : list MegaFile) (k : nat) :
  map id fs = seq k (length fs) ->
  mapIndexed (fun f i => withId i f) k fs = fs.
Proof.
  revert k; induction fs as [|f fs IH]; intros k; [reflexivity|].
  cbn [map length seq mapIndexed]. intros Hids.
  injection Hids as Hid Hrest. rewrite IH by assumption.
  f_equal. destruct f; simpl in *; now subst.
Qed.

Section ListingFacts.

Variable toLowerCase : jsstring -> jsstring.

Lemma parseLine_listingLine (text : jsstring) (f : MegaFile) (n : nat) :
  In f (parseNewStructure toLowerCase text) ->
  ~ In chLt (fullPath f) -> handle f <> [] ->
  parseLine toLowerCase n (listingLine f) = Some (withId n f).
Proof.
  intros Hin Hlt Hh. apply parse_In in Hin as (m & line & _ & Hparse).
  pose proof (parseLine_fields _ _ _ _ Hparse) as (_ & Hfolder & Hext & Htype).
  apply parseLine_Some in Hparse as (g1 & g2 & Hmatch & Hfull & Hhandle & Hname).
  unfold matchLine in Hmatch.
  apply matchPath_sound in Hmatch as (p' & rest & Hg1 & _ & _ & Hterm & Hrest).
  apply matchHandle_sound in Hrest as (ws & _ & _ & _ & _ & Hgt).
  simpl in Hg1. subst p'.
  assert (Htrim : trim (fullPath f) = fullPath f).
  { rewrite Hfull. apply trim_idempotent. }
  assert (Hpath : Forall notTerminator (fullPath f)).
  { apply List.Forall_forall. intros c Hc. rewrite Hfull in Hc. apply trim_In in Hc.
    rewrite List.Forall_forall in Hterm. now apply Hterm. }
  assert (Hgt' : ~ In chGt (handle f)).
  { rewrite Hhandle. intros Hc. apply trim_In in Hc. contradiction. }
  assert (Hsp : Forall whiteSpace (js " ")) by repeat constructor.
  assert (Hne : js " " <> []) by discriminate.
  pose proof (parseLine_of_parts toLowerCase n (fullPath f) (js " ") (handle f) (fileName f)
                Htrim Hpath Hlt Hname Hne Hsp Hh Hgt') as Hline.
  unfold listingLine. change (js " <H:") with (js " " ++ js "<H:").
  rewrite <- app_assoc, Hline.
  unfold withId. f_equal. f_equal; try congruence.
  rewrite Hhandle. apply trim_idempotent.
Qed.

Lemma parseLines_listing (fs : list MegaFile) :
  (forall f n, In f fs -> parseLine toLowerCase n (listingLine f) = Some (withId n f)) ->
  forall files,
  parseLines toLowerCase (map listingLine fs) files
  = files ++ mapIndexed (fun f i => withId i f) (length files) fs.
Proof.
  induction fs as [|f fs IH]; intros Hall files; simpl.
  - now rewrite app_nil_r.
  - rewrite Hall by now left.
    rewrite IH by (intros; apply Hall; now right).
    rewrite <- app_assoc, length_app. simpl.
    now rewrite Nat.add_1_r.
Qed.

(** X16: a record of the output, written as a line of the listing (its path,
    a space, [<H:], its handle and [>]), is read as that same record, given
    that its path has no [<] and its handle is not empty; so the listing
    written from the records of a text gives these records again. *)
Theorem parse_listing_again (text : jsstring) :
  let fs := parseNewStructure toLowerCase text in
  (forall f, In f fs -> ~ In chLt (fullPath f) /\ handle f <> []) ->
  (forall f n, In f fs -> parseLine toLowerCase n (listingLine f) = Some (withId n f)) /\
  parseNewStructure toLowerCase (join [chNewline] (map listingLine fs)) = fs.
Proof.
  intros fs Hok.
  assert (Hline : forall f n, In f fs ->
            parseLine toLowerCase n (listingLine f) = Some (withId n f)).
  { intros f n Hf. destruct (Hok f Hf). now apply (parseLine_listingLine text). }
  split; [exact Hline|].
  destruct fs as [|f0 fs'] eqn:Efs; [reflexivity|]. rewrite <- Efs in *.
  unfold parseNewStructure at 1.
  rewrite split_join.
  - rewrite (parseLines_listing fs Hline []). simpl.
    apply mapIndexed_withId. unfold fs. apply parseLines_ids. reflexivity.
  - apply List.Forall_forall. intros l Hl.
    apply in_map_iff in Hl as (f & <- & Hf).
    destruct (parse_oneLineFields toLowerCase text f Hf) as (_ & Hpath & Hhandle).
    unfold listingLine. repeat apply notIn_app; try assumption; apply notIn_check; reflexivity.
  - rewrite Efs. discriminate.
Qed.

End ListingFacts.

Lemma parse_listing_again_witness :
  (forall f, In f (parseNewStructure asciiToLowerCase twoFilesText) ->
             ~ In chLt (fullPath f) /\ handle f <> []) /\
  parseNewStructure asciiToLowerCase
    (join [chNewline] (map listingLine (parseNewStructure asciiToLowerCase twoFilesText)))
  = parseNewStructure asciiToLowerCase twoFilesText.
Proof.
  assert (H : forall f, In f (parseNewStructure asciiToLowerCase twoFilesText) ->
                        ~ In chLt (fullPath f) /\ handle f <> []).
  { intros f [<- | [<- | []]]; (split; [none_of | discriminate]). }
  split; [exact H|].
  exact (proj2 (parse_listing_again asciiToLowerCase twoFilesText H)).
Defined.
